(** * knode: node / pod classification, target resolution, drain progress
      and node-group scaling

    A shallow embedding of the Python package [knode] (modules [kubectl],
    [nodes], [aws] and [cli]) and the properties its specification states.

    Conventions of the embedding.
    - A Python [str] is a [string]; ordering is the lexicographic order on
      characters ([String.compare]), case mapping is the ASCII one.
    - A value produced by [json.loads] is a [json] tree; dictionaries are
      [gmap string json].  Numbers are integers.
    - Exceptions are values of [exn]; code that can raise returns [res].
    - External commands go through [subprocess.run] / [subprocess.Popen];
      their behaviour is an oracle of the environment ([Env]) that sees the
      commands issued so far, and every invocation is appended to the
      [calls] log of the [State]. *)

From Stdlib Require Import ZArith QArith Qround Lqa Ascii String.
From stdpp Require Import gmap strings list pretty sorting relations.

Local Open Scope list_scope.
Local Open Scope Z_scope.

(** ** Python strings *)

Module str.

Definition lower_char (c : ascii) : ascii :=
  let n := N_of_ascii c in
  if ((65 <=? n) && (n <=? 90))%N then ascii_of_N (n + 32) else c.

(** [s.lower()] *)
Fixpoint lower (s : string) : string :=
  match s with
  | EmptyString => EmptyString
  | String c s' => String (lower_char c) (lower s')
  end.

(** [s.replace(old, new)] for one-character [old] and [new]. *)
Fixpoint replace (old new : ascii) (s : string) : string :=
  match s with
  | EmptyString => EmptyString
  | String c s' =>
      String (if Ascii.eqb c old then new else c) (replace old new s')
  end.

(** [needle in hay] *)
Fixpoint contains (needle hay : string) : bool :=
  String.prefix needle hay ||
  match hay with
  | EmptyString => false
  | String _ hay' => contains needle hay'
  end.

(** [sep.join(parts)] *)
Definition join (sep : string) (parts : list string) : string :=
  String.concat sep parts.

(** [c * n] for a one-character string [c]; empty when [n <= 0]. *)
Definition repeat (c : ascii) (n : Z) : string :=
  string_of_list_ascii (List.repeat c (Z.to_nat n)).

Definition len (s : string) : Z := Z.of_nat (String.length s).

(** [s.ljust(width)] *)
Definition ljust (s : string) (width : Z) : string :=
  s +:+ repeat " "%char (width - len s).

(** [bool(s)] *)
Definition truthy (s : string) : bool := negb (String.eqb s "").

Definition is_space (c : ascii) : bool :=
  let n := N_of_ascii c in
  (((9 <=? n) && (n <=? 13)) || ((28 <=? n) && (n <=? 32)))%N.

Fixpoint lstrip (s : string) : string :=
  match s with
  | EmptyString => EmptyString
  | String c s' => if is_space c then lstrip s' else s
  end.

(** [s.strip()] *)
Definition strip (s : string) : string :=
  String.rev (lstrip (String.rev (lstrip s))).

End str.

(** [a or b] on strings. *)
Definition str_or (a b : string) : string := if str.truthy a then a else b.

(** [bool(d.get(k))] for a dictionary of strings. *)
Definition opt_truthy (o : option string) : bool :=
  match o with
  | Some s => str.truthy s
  | None => false
  end.

(** ** Exceptions and results *)

Inductive exn :=
  | RuntimeError (msg : string)
  | AttributeError
  | TypeError
  | KeyError (key : string)
  | ZeroDivisionError
  | SystemExit (code : Z).

Inductive res (A : Type) :=
  | Ok (a : A)
  | Raise (e : exn).
Arguments Ok {A} a.
Arguments Raise {A} e.

#[global] Instance res_ret : MRet res := λ A a, Ok a.
#[global] Instance res_bind : MBind res := λ A B f m,
  match m with
  | Ok a => f a
  | Raise e => Raise e
  end.
#[global] Instance res_fmap : FMap res := λ A B f m,
  match m with
  | Ok a => Ok (f a)
  | Raise e => Raise e
  end.

(** [[f(x) for x in l]], stopping at the first exception. *)
Fixpoint res_mapM {A B} (f : A → res B) (l : list A) : res (list B) :=
  match l with
  | [] => Ok []
  | x :: l' => y ← f x; ys ← res_mapM f l'; Ok (y :: ys)
  end.

(** A [for] loop threading an accumulator. *)
Fixpoint res_foldM {A S} (f : S → A → res S) (s : S) (l : list A) : res S :=
  match l with
  | [] => Ok s
  | x :: l' => s' ← f s x; res_foldM f s' l'
  end.

(** [any(f(x) for x in l)]: stops at the first true element. *)
Fixpoint py_any {A} (f : A → res bool) (l : list A) : res bool :=
  match l with
  | [] => Ok false
  | x :: l' => b ← f x; if (b : bool) then Ok true else py_any f l'
  end.

(** ** Values read by [json.loads] *)

#[warnings="-register-all"]
Inductive json :=
  | JNull
  | JBool (b : bool)
  | JInt (z : Z)
  | JStr (s : string)
  | JList (l : list json)
  | JDict (d : gmap string json).

Module py.

(** [bool(v)] *)
Definition truthy (v : json) : bool :=
  match v with
  | JNull => false
  | JBool b => b
  | JInt z => negb (z =? 0)
  | JStr s => str.truthy s
  | JList l => match l with [] => false | _ => true end
  | JDict d => negb (bool_decide (d = ∅))
  end.

(** [v.get(k, dflt)]: only dictionaries have [get]. *)
Definition get (v : json) (k : string) (dflt : json) : res json :=
  match v with
  | JDict d => Ok (default dflt (d !! k))
  | _ => Raise AttributeError
  end.

(** [v[k]] with a string key. *)
Definition getitem (v : json) (k : string) : res json :=
  match v with
  | JDict d =>
      match d !! k with
      | Some x => Ok x
      | None => Raise (KeyError k)
      end
  | _ => Raise TypeError
  end.

(** The elements a [for] loop over [v] visits: the items of a list, the
    keys of a dictionary, the characters of a string. *)
Definition iter (v : json) : res (list json) :=
  match v with
  | JList l => Ok l
  | JDict d => Ok (JStr <$> (map_to_list d).*1)
  | JStr s => Ok ((λ c, JStr (String c "")) <$> list_ascii_of_string s)
  | _ => Raise TypeError
  end.

(** [v == s] for a string literal [s]. *)
Definition eq_str (v : json) (s : string) : bool :=
  match v with
  | JStr s' => String.eqb s' s
  | _ => false
  end.

(** [v in node_set] for a set of strings: lists and dictionaries are
    unhashable, any other non-string is simply not a member. *)
Definition in_set (v : json) (s : gset string) : res bool :=
  match v with
  | JStr x => Ok (bool_decide (x ∈ s))
  | JList _ | JDict _ => Raise TypeError
  | _ => Ok false
  end.

(** Fields the dataclasses declare as [str] / [int] / [dict] of strings.
    A document whose leaf has another type is outside the model: the
    conversion raises [TypeError] there. *)
Definition as_str (v : json) : res string :=
  match v with
  | JStr s => Ok s
  | _ => Raise TypeError
  end.

Definition as_int (v : json) : res Z :=
  match v with
  | JInt z => Ok z
  | _ => Raise TypeError
  end.

Definition as_str_opt (v : option json) : res (option string) :=
  match v with
  | None => Ok None
  | Some x => Some <$> as_str x
  end.

Definition str_of (v : json) : option string :=
  match v with
  | JStr s => Some s
  | _ => None
  end.

(** A label dictionary: every value is a string. *)
Definition as_labels (v : json) : res (gmap string string) :=
  match v with
  | JDict d =>
      if bool_decide (map_Forall (λ _ x, is_Some (str_of x)) d)
      then Ok (omap str_of d)
      else Raise TypeError
  | _ => Raise AttributeError
  end.

End py.

(** ** The environment: external commands, the JSON parser, floats *)

Record CompletedProcess := {
  returncode : Z;
  stdout : string;
  stderr : string;
}.

(** What the program cannot decide itself.
    - [subprocess_run history cmd]: the result of running [cmd] to
      completion after the commands in [history].
    - [subprocess_Popen history cmd]: the lines the process writes on its
      combined output, in emission order, and its exit status.
    - [json_loads text]: [None] stands for [json.JSONDecodeError].
    - [list_of_set s]: the order in which [list(s)] enumerates a set. *)
Class Env := {
  subprocess_run : list (list string) → list string → CompletedProcess;
  subprocess_Popen : list (list string) → list string → list string * Z;
  json_loads : string → option json;
  list_of_set : gset string → list string;
  list_of_set_perm : ∀ s, list_of_set s ≡ₚ elements s;
}.

(** The part of Python's float arithmetic [_format_progress] uses:
    [truediv a b] is [a / b] on integers with [b ≠ 0], [of_int] the
    conversion in [width * pct], [trunc] is [int(x)].  The laws are the
    monotonicity facts correctly rounded arithmetic satisfies. *)
Class PyFloat := {
  float : Type;
  of_int : Z → float;
  truediv : Z → Z → float;
  fmul : float → float → float;
  fltb : float → float → bool;
  fle : float → float → Prop;
  trunc : float → Z;
  fle_refl : ∀ x, fle x x;
  fltb_fle : ∀ x y, fltb x y = true → fle x y;
  fmul_fle : ∀ w p, 0 ≤ w → fle p (of_int 1) → fle (fmul (of_int w) p) (of_int w);
  trunc_fle : ∀ x w, fle x (of_int w) → trunc x ≤ w;
}.

(** ** Program state and the command monad *)

Record State := {
  calls : list (list string);   (* commands started, oldest first *)
  echo_out : list string;       (* click.echo(...) *)
  echo_err : list string;       (* click.echo(..., err=True) *)
}.

Definition M (A : Type) : Type := State → res A * State.

#[global] Instance M_ret : MRet M := λ A a st, (Ok a, st).
#[global] Instance M_bind : MBind M := λ A B f m st,
  match m st with
  | (Ok a, st') => f a st'
  | (Raise e, st') => (Raise e, st')
  end.

Definition raise {A} (e : exn) : M A := λ st, (Raise e, st).

Definition lift {A} (r : res A) : M A := λ st, (r, st).

(** [try: body except RuntimeError as e: handler(str(e))] *)
Definition try_except_RuntimeError {A} (body : M A) (handler : string → M A) : M A :=
  λ st,
    match body st with
    | (Raise (RuntimeError msg), st') => handler msg st'
    | r => r
    end.

(** [click.echo(msg, err=err)] *)
Definition echo (msg : string) (err : bool) : M () := λ st,
  (Ok (),
   if err
   then {| calls := calls st; echo_out := echo_out st; echo_err := echo_err st ++ [msg] |}
   else {| calls := calls st; echo_out := echo_out st ++ [msg]; echo_err := echo_err st |}).

(** [sys.exit(code)] *)
Definition sys_exit {A} (code : Z) : M A := raise (SystemExit code).

(** A [for] loop with effects. *)
Fixpoint forM_ {A} (l : list A) (body : A → M ()) : M () :=
  match l with
  | [] => mret ()
  | x :: l' => body x ;; forM_ l' body
  end.

Section subprocess.
Context `{Env}.

(** [subprocess.run(cmd, capture_output=True, text=True, timeout=...)]
    for a command that completes. *)
Definition run (cmd : list string) : M CompletedProcess := λ st,
  (Ok (subprocess_run (calls st) cmd),
   {| calls := calls st ++ [cmd]; echo_out := echo_out st; echo_err := echo_err st |}).

(** [subprocess.Popen(cmd, stdout=PIPE, stderr=STDOUT, text=True)] *)
Definition Popen (cmd : list string) : M (list string * Z) := λ st,
  (Ok (subprocess_Popen (calls st) cmd),
   {| calls := calls st ++ [cmd]; echo_out := echo_out st; echo_err := echo_err st |}).

End subprocess.

(** ** kubectl.py *)

Module kubectl.
Section kubectl.
Context `{Env} `{PyFloat}.

(** [run_kubectl(args)]; the [timeout] bounds the wait and is not
    modelled: the oracle answers for a command that completes. *)
Definition run_kubectl (args : list string) : M CompletedProcess :=
  run ("kubectl" :: args).

(** [any(ref.get("kind") == "DaemonSet" for ref in owner_refs)] *)
Definition any_daemonset (owner_refs : json) : res bool :=
  refs ← py.iter owner_refs;
  py_any (λ ref, kind ← py.get ref "kind" JNull; Ok (py.eq_str kind "DaemonSet")) refs.

(** One iteration of the counting loop of [count_pods_on_nodes]. *)
Definition count_item (node_set : gset string) (count : Z) (item : json) : res Z :=
  spec ← py.get item "spec" (JDict ∅);
  node ← py.get spec "nodeName" (JStr "");
  is_in ← py.in_set node node_set;
  if (is_in : bool) then
    metadata ← py.get item "metadata" (JDict ∅);
    owner_refs ← py.get metadata "ownerReferences" (JList []);
    is_ds ← any_daemonset owner_refs;
    if (is_ds : bool) then Ok count else Ok (count + 1)
  else Ok count.

Definition count_pods_on_nodes (node_names : list string) : M Z :=
  match node_names with
  | [] => mret 0
  | _ =>
      let node_set : gset string := list_to_set node_names in
      result ← run_kubectl ["get"; "pods"; "-A"; "-o"; "json"];
      if negb (returncode result =? 0) || negb (str.truthy (stdout result))
      then mret 0
      else
        match json_loads (stdout result) with
        | None => mret 0
        | Some data =>
            lift (items ← py.get data "items" (JList []);
                  l ← py.iter items;
                  res_foldM (count_item node_set) 0 l)
        end
  end.

(** [None] is Python's [None]: the command failed or its output did
    not parse. *)
Definition get_nodes_json : M (option json) :=
  result ← run_kubectl ["get"; "nodes"; "-o"; "json"];
  if negb (returncode result =? 0) || negb (str.truthy (stdout result))
  then mret None
  else mret (json_loads (stdout result)).

Definition get_pods_json : M (option json) :=
  result ← run_kubectl ["get"; "pods"; "-A"; "-o"; "json"];
  if negb (returncode result =? 0) || negb (str.truthy (stdout result))
  then mret None
  else mret (json_loads (stdout result)).

(** The [(returncode, stderr or stdout)] pair the node operations return. *)
Definition completed (result : CompletedProcess) : Z * string :=
  let output := if str.truthy (stderr result) then stderr result else stdout result in
  (returncode result, str_or output "").

Definition cordon_nodes (node_names : list string) : M (Z * string) :=
  match node_names with
  | [] => mret (0, "")
  | _ => result ← run_kubectl ("cordon" :: node_names); mret (completed result)
  end.

Definition uncordon_nodes (node_names : list string) : M (Z * string) :=
  match node_names with
  | [] => mret (0, "")
  | _ => result ← run_kubectl ("uncordon" :: node_names); mret (completed result)
  end.

(** Python numbers in [_format_progress]: [pct] is a float, or the
    integer [0] of the conditional's else branch. *)
Inductive num :=
  | NInt (z : Z)
  | NFloat (x : float).

(** [a / b] *)
Definition py_truediv (a b : Z) : res float :=
  if b =? 0 then Raise ZeroDivisionError else Ok (truediv a b).

(** [min(1.0, x)] *)
Definition min_one (x : float) : float :=
  if fltb x (of_int 1) then x else of_int 1.

(** [width * pct] *)
Definition mul_int (width : Z) (pct : num) : num :=
  match pct with
  | NInt z => NInt (width * z)
  | NFloat x => NFloat (fmul (of_int width) x)
  end.

(** [int(x)] *)
Definition int_of (x : num) : Z :=
  match x with
  | NInt z => z
  | NFloat x => trunc x
  end.

Definition indeterminate : string := "Draining... (evicting pods)".

(** The bar of [_format_progress], before it is framed. *)
Definition progress_bar (evicted total width filled : Z) : string :=
  let bar :=
    str.repeat "="%char filled
    +:+ str.repeat ">"%char (if (filled <? width) && (evicted <? total) then 1 else 0) in
  str.ljust bar width.

(** [filled] of [_format_progress], for [total > 0]. *)
Definition progress_filled (evicted total width : Z) : res Z :=
  pct ← (if negb (total =? 0)
         then q ← py_truediv evicted total; Ok (NFloat (min_one q))
         else Ok (NInt 0));
  Ok (int_of (mul_int width pct)).

Definition _format_progress (evicted total : Z) (width : Z) : res string :=
  if total <=? 0 then Ok indeterminate
  else
    filled ← progress_filled evicted total width;
    let bar := progress_bar evicted total width filled in
    Ok ("Draining... [" +:+ bar +:+ "] " +:+ pretty evicted +:+ "/" +:+ pretty total
        +:+ " pods evicted").

(** The command line of [drain_nodes]. *)
Definition drain_args (ignore_daemonsets delete_emptydir_data ignore_errors : bool)
    (node_names : list string) : list string :=
  ["drain"]
  ++ (if ignore_daemonsets then ["--ignore-daemonsets"] else [])
  ++ (if delete_emptydir_data then ["--delete-emptydir-data"] else [])
  ++ (if ignore_errors then ["--ignore-errors"] else [])
  ++ node_names.

(** The test of [read_output] on one line. *)
Definition is_eviction_line (line : string) : bool :=
  str.contains "pod/" line && str.contains " evicted" (str.lower line).

(** The body of the loop of [read_output]: the state is
    [(evicted, output_lines)]. *)
Definition read_line (st : Z * list string) (line : string) : Z * list string :=
  let output_lines := st.2 ++ [line] in
  if is_eviction_line line then (st.1 + 1, output_lines) else (st.1, output_lines).

(** [read_output] run until the stream ends. *)
Definition read_output (lines : list string) : Z * list string :=
  foldl read_line (0, []) lines.

(** [drain_nodes]: the reader thread is joined at the end of the stream;
    the progress line written meanwhile is described by [tracker_step]. *)
Definition drain_nodes (node_names : list string)
    (ignore_daemonsets delete_emptydir_data ignore_errors show_progress : bool)
    : M (Z * string) :=
  match node_names with
  | [] => mret (0, "")
  | _ =>
      let args := drain_args ignore_daemonsets delete_emptydir_data ignore_errors node_names in
      if negb show_progress then
        result ← run_kubectl args; mret (completed result)
      else
        total ← count_pods_on_nodes node_names;
        proc ← Popen ("kubectl" :: args);
        let '(evicted, output_lines) := read_output proc.1 in
        let output := str.join "" output_lines in
        mret (if proc.2 =? 0 then 0 else proc.2, output)
  end.

(** The running phase of [drain_nodes] as two interleaved activities:
    the reader thread consumes the next line, or the polling loop writes
    the progress line (carriage return, message, four spaces). *)
Record Tracker := {
  unread : list string;
  evicted : Z;
  output_lines : list string;
  display : list string;
}.

Definition tracker_init (lines : list string) : Tracker :=
  {| unread := lines; evicted := 0; output_lines := []; display := [] |}.

Definition CR : string := String "013"%char "".

Inductive tracker_step (total : Z) : Tracker → Tracker → Prop :=
  | reader_step line rest ev out disp :
      tracker_step total
        {| unread := line :: rest; evicted := ev; output_lines := out; display := disp |}
        {| unread := rest;
           evicted := (read_line (ev, out) line).1;
           output_lines := (read_line (ev, out) line).2;
           display := disp |}
  | render_step tr msg :
      _format_progress (evicted tr) total 30 = Ok msg →
      tracker_step total tr
        {| unread := unread tr; evicted := evicted tr; output_lines := output_lines tr;
           display := display tr ++ [CR +:+ msg +:+ "    "] |}.

(** The reader has reached the end of the stream. *)
Definition tracker_done (tr : Tracker) : Prop := unread tr = [].

End kubectl.
End kubectl.

(** ** nodes.py *)

Module Label.
Definition capacity_type := "karpenter.sh/capacity-type".
Definition capacityType := "eks.amazonaws.com/capacityType".
Definition compute_type := "eks.amazonaws.com/compute-type".
Definition nodegroup := "eks.amazonaws.com/nodegroup".
Definition instance_type := "node.kubernetes.io/instance-type".
Definition beta_instance_type := "beta.kubernetes.io/instance-type".
Definition zone := "topology.kubernetes.io/zone".
End Label.

(** [labels.get(k) or dflt] *)
Definition opt_or (o : option string) (dflt : string) : string :=
  if opt_truthy o then default "" o else dflt.

Definition _capacity_type (labels : gmap string string) : string :=
  let ctype := labels !! Label.capacity_type in
  if negb (opt_truthy ctype) then
    let ctype := labels !! Label.capacityType in
    if opt_truthy ctype then
      str.lower (str.replace "_" "-" (default "" ctype))
    else
      opt_or (labels !! Label.compute_type) ""
  else default "" ctype.

Definition _is_in_nodegroup (labels : gmap string string) : bool :=
  opt_truthy (labels !! Label.nodegroup).

Module NodeInfo.

Record t := {
  name : string;
  status : string;
  instance_type : string;
  zone : string;
  captype : string;
  unschedulable : bool;
}.

(** [[c["type"] for c in conditions if c.get("status") == "True"]] *)
Fixpoint true_conditions (conditions : list json) : res (list json) :=
  match conditions with
  | [] => Ok []
  | c :: rest =>
      st ← py.get c "status" JNull;
      if py.eq_str st "True" then
        ty ← py.getitem c "type";
        tys ← true_conditions rest;
        Ok (ty :: tys)
      else true_conditions rest
  end.

(** The capacity tag with the [NG/] prefix of managed node groups. *)
Definition captype_of (labels : gmap string string) : string :=
  let ctype := _capacity_type labels in
  if _is_in_nodegroup labels && str.truthy ctype then "NG/" +:+ ctype
  else str_or ctype "-".

Definition from_dict (obj : json) : res t :=
  metadata ← py.get obj "metadata" (JDict ∅);
  spec ← py.get obj "spec" (JDict ∅);
  status ← py.get obj "status" (JDict ∅);
  conditions ← py.get status "conditions" (JList []);
  conds ← py.iter conditions;
  status_parts ← true_conditions conds;
  unsched ← py.get spec "unschedulable" JNull;
  let status_parts :=
    if py.truthy unsched then status_parts ++ [JStr "NoSchedule"] else status_parts in
  status_strs ← res_mapM py.as_str status_parts;
  let status_str := str.join "," status_strs in
  labels ← py.get metadata "labels" (JDict ∅);
  labels ← py.as_labels labels;
  let instance_type :=
    opt_or (labels !! Label.instance_type) (opt_or (labels !! Label.beta_instance_type) "") in
  let zone := default "" (labels !! Label.zone) in
  let captype := captype_of labels in
  name ← py.get metadata "name" (JStr "");
  name ← py.as_str name;
  Ok {| name := name; status := status_str; instance_type := instance_type;
        zone := zone; captype := captype; unschedulable := py.truthy unsched |}.

End NodeInfo.

Module PodInfo.

Record t := {
  namespace : string;
  name : string;
  status : string;
  node : string;
  restarts : Z;
  is_daemonset : bool;
}.

(** One summand of [sum(cs.get("restartCount", 0) ...)]; a boolean
    counts as 0 or 1. *)
Definition add_restarts (acc : Z) (cs : json) : res Z :=
  v ← py.get cs "restartCount" (JInt 0);
  match v with
  | JInt z => Ok (acc + z)
  | JBool b => Ok (acc + Z.b2z b)
  | _ => Raise TypeError
  end.

(** The loop that replaces the phase by the first waiting reason. *)
Fixpoint waiting_reason (phase : json) (container_statuses : list json) : res json :=
  match container_statuses with
  | [] => Ok phase
  | cs :: rest =>
      state ← py.get cs "state" (JDict ∅);
      waiting ← py.get state "waiting" (JDict ∅);
      reason ← py.get waiting "reason" (JStr "");
      if py.truthy reason then Ok reason else waiting_reason phase rest
  end.

Definition from_dict (obj : json) : res t :=
  metadata ← py.get obj "metadata" (JDict ∅);
  spec ← py.get obj "spec" (JDict ∅);
  pod_status ← py.get obj "status" (JDict ∅);
  phase ← py.get pod_status "phase" (JStr "Unknown");
  container_statuses ← py.get pod_status "containerStatuses" (JList []);
  css ← py.iter container_statuses;
  restarts ← res_foldM add_restarts 0 css;
  phase ← waiting_reason phase css;
  owner_refs ← py.get metadata "ownerReferences" (JList []);
  is_ds ← kubectl.any_daemonset owner_refs;
  namespace ← py.get metadata "namespace" (JStr "");
  namespace ← py.as_str namespace;
  name ← py.get metadata "name" (JStr "");
  name ← py.as_str name;
  status ← py.as_str phase;
  node ← py.get spec "nodeName" (JStr "");
  node ← py.as_str node;
  Ok {| namespace := namespace; name := name; status := status; node := node;
        restarts := restarts; is_daemonset := is_ds |}.

(** The sort key [(p.node, p.namespace, p.name)]. *)
Definition key (p : t) : string * string * string := (node p, namespace p, name p).

End PodInfo.

(** Comparison of the key tuples: component by component, the first
    difference decides. *)
Definition key_compare (a b : string * string * string) : comparison :=
  match String.compare a.1.1 b.1.1 with
  | Eq =>
      match String.compare a.1.2 b.1.2 with
      | Eq => String.compare a.2 b.2
      | c => c
      end
  | c => c
  end.

Definition key_ltb (a b : string * string * string) : bool :=
  match key_compare a b with Lt => true | _ => false end.

(** [list.sort(key=...)] is a stable sort that only asks whether one key
    is smaller than another; the stable sorted arrangement of a list is
    unique, and insertion from the right computes it. *)
Section stable_sort.
Context {A K : Type} (key : A → K) (ltb : K → K → bool).

Fixpoint sort_insert (x : A) (l : list A) : list A :=
  match l with
  | [] => [x]
  | y :: l' => if ltb (key y) (key x) then y :: sort_insert x l' else x :: l
  end.

Definition sort_by (l : list A) : list A := foldr sort_insert [] l.
End stable_sort.

Module nodes.
Section nodes.
Context `{Env}.

Definition get_all_nodes : M (list NodeInfo.t) :=
  data ← kubectl.get_nodes_json;
  match data with
  | Some d =>
      if py.truthy d then
        lift (items ← py.get d "items" (JList []);
              l ← py.iter items;
              res_mapM NodeInfo.from_dict l)
      else raise (RuntimeError
        "Failed to get nodes. Ensure cluster context is set (e.g. set-clus staging).")
  | None => raise (RuntimeError
        "Failed to get nodes. Ensure cluster context is set (e.g. set-clus staging).")
  end.

Definition get_node_names : M (list string) :=
  all_nodes ← get_all_nodes; mret (NodeInfo.name <$> all_nodes).

(** The body of the loop of [get_pods_for_nodes]. *)
Definition collect_pod (node_set : gset string) (include_daemonsets : bool)
    (pods : list PodInfo.t) (item : json) : res (list PodInfo.t) :=
  pod ← PodInfo.from_dict item;
  if negb (bool_decide (PodInfo.node pod ∈ node_set)) then Ok pods
  else if PodInfo.is_daemonset pod && negb include_daemonsets then Ok pods
  else Ok (pods ++ [pod]).

Definition get_pods_for_nodes (node_names : list string) (include_daemonsets : bool)
    : M (list PodInfo.t) :=
  match node_names with
  | [] => mret []
  | _ =>
      data ← kubectl.get_pods_json;
      match data with
      | Some d =>
          if py.truthy d then
            let node_set : gset string := list_to_set node_names in
            pods ← lift (items ← py.get d "items" (JList []);
                         l ← py.iter items;
                         res_foldM (collect_pod node_set include_daemonsets) [] l);
            mret (sort_by PodInfo.key key_ltb pods)
          else raise (RuntimeError
            "Failed to get pods. Ensure cluster context is set (e.g. set-clus staging).")
      | None => raise (RuntimeError
            "Failed to get pods. Ensure cluster context is set (e.g. set-clus staging).")
      end
  end.

End nodes.
End nodes.

(** ** aws.py *)

Module NodeGroupInfo.
Record t := {
  name : string;
  status : string;
  capacity_type : string;
  min_size : Z;
  max_size : Z;
  desired_size : Z;
}.
End NodeGroupInfo.

Module aws.
Section aws.
Context `{Env}.

(** [["--flag", value]] when the optional value is set and non-empty. *)
Definition opt_flag (flag : string) (value : option string) : list string :=
  if opt_truthy value then [flag; default "" value] else [].

Definition aws_cmd (args : list string) (region profile : option string) : list string :=
  ["aws"; "eks"] ++ args ++ opt_flag "--region" region ++ opt_flag "--profile" profile.

Definition run_aws (args : list string) (region profile : option string)
    : M CompletedProcess :=
  run (aws_cmd args region profile).

(** The names [list_nodegroups] returns are strings. *)
Definition as_str_list (v : json) : res (list string) :=
  match v with
  | JList l => res_mapM py.as_str l
  | _ => Raise TypeError
  end.

Definition list_nodegroups (cluster_name : string) (region profile : option string)
    : M (list string) :=
  result ← run_aws ["list-nodegroups"; "--cluster-name"; cluster_name;
                    "--query"; "nodegroups"; "--output"; "json"] region profile;
  if negb (returncode result =? 0) then
    if str.truthy (stderr result)
    then raise (RuntimeError
                  ("aws eks list-nodegroups failed: " +:+ str.strip (stderr result)))
    else mret []
  else if negb (str.truthy (stdout result)) then mret []
  else
    match json_loads (stdout result) with
    | None => mret []
    | Some v => lift (as_str_list v)
    end.

Definition describe_nodegroup (cluster_name nodegroup_name : string)
    (region profile : option string) : M (option json) :=
  result ← run_aws ["describe-nodegroup"; "--cluster-name"; cluster_name;
                    "--nodegroup-name"; nodegroup_name] region profile;
  if negb (returncode result =? 0) || negb (str.truthy (stdout result))
  then mret None
  else mret (json_loads (stdout result)).

(** The fields [get_nodegroup_info] reads from a description. *)
Definition nodegroup_info_of (nodegroup_name : string) (data : json)
    : res NodeGroupInfo.t :=
  ng ← py.get data "nodegroup" (JDict ∅);
  scaling ← py.get ng "scalingConfig" (JDict ∅);
  raw_cap ← py.get ng "capacityType" (JStr "");
  capacity_type ←
    (if py.truthy raw_cap then
       match raw_cap with
       | JStr s => Ok (str.lower (str.replace "_" "-" s))
       | _ => Raise AttributeError
       end
     else Ok "");
  name ← py.get ng "nodegroupName" (JStr nodegroup_name);
  name ← py.as_str name;
  status ← py.get ng "status" (JStr "UNKNOWN");
  status ← py.as_str status;
  min_size ← py.get scaling "minSize" (JInt 0);
  min_size ← py.as_int min_size;
  max_size ← py.get scaling "maxSize" (JInt 0);
  max_size ← py.as_int max_size;
  desired_size ← py.get scaling "desiredSize" (JInt 0);
  desired_size ← py.as_int desired_size;
  Ok {| NodeGroupInfo.name := name; NodeGroupInfo.status := status;
        NodeGroupInfo.capacity_type := capacity_type;
        NodeGroupInfo.min_size := min_size; NodeGroupInfo.max_size := max_size;
        NodeGroupInfo.desired_size := desired_size |}.

Definition get_nodegroup_info (cluster_name nodegroup_name : string)
    (region profile : option string) : M (option NodeGroupInfo.t) :=
  data ← describe_nodegroup cluster_name nodegroup_name region profile;
  match data with
  | Some d =>
      if py.truthy d then lift (Some <$> nodegroup_info_of nodegroup_name d)
      else mret None
  | None => mret None
  end.

(** The value of [--scaling-config]. *)
Definition scaling_config (min_s max_s desired_s : Z) : string :=
  "minSize=" +:+ pretty min_s +:+ ",maxSize=" +:+ pretty max_s
  +:+ ",desiredSize=" +:+ pretty desired_s.

Definition update_args (cluster_name nodegroup_name scaling : string) : list string :=
  ["update-nodegroup-config"; "--cluster-name"; cluster_name;
   "--nodegroup-name"; nodegroup_name; "--scaling-config"; scaling].

Definition update_nodegroup_scaling (cluster_name nodegroup_name : string)
    (region profile : option string) (min_size max_size desired_size : option Z)
    : M (Z * string) :=
  current ← get_nodegroup_info cluster_name nodegroup_name region profile;
  match current with
  | None => mret (1, "Could not describe node group " +:+ nodegroup_name)
  | Some current =>
      let min_s := default (NodeGroupInfo.min_size current) min_size in
      let max_s := default (NodeGroupInfo.max_size current) max_size in
      let desired_s := default (NodeGroupInfo.desired_size current) desired_size in
      let scaling := scaling_config min_s max_s desired_s in
      result ← run_aws (update_args cluster_name nodegroup_name scaling) region profile;
      mret (kubectl.completed result)
  end.

End aws.
End aws.

(** ** cli.py *)

(** A [for] loop with effects threading an accumulator. *)
Fixpoint M_foldM {A S} (f : S → A → M S) (s : S) (l : list A) : M S :=
  match l with
  | [] => mret s
  | x :: l' => s' ← f s x; M_foldM f s' l'
  end.

(** [if cond: action] where the action ends the command. *)
Definition when_ (cond : bool) (action : M ()) : M () :=
  if cond then action else mret ().

(** The lookups of the active cluster's name, region and credential
    profile ([get_cluster_name], [get_cluster_region],
    [get_cluster_profile]); the first raises [RuntimeError] when no
    context is set. *)
Record ClusterContext := {
  get_cluster_name : M string;
  get_cluster_region : M (option string);
  get_cluster_profile : M (option string);
}.

Module cli.
Section cli.
Context `{Env}.

(** [except RuntimeError as e: click.echo(str(e), err=True); sys.exit(1)] *)
Definition echo_and_exit {A} (msg : string) : M A :=
  echo msg true ;; sys_exit 1.

Definition _resolve_nodes (node_args : list string) (captype : option string)
    : M (list string) :=
  let result : gset string := ∅ in
  let result :=
    match node_args with
    | [] => result
    | _ => result ∪ list_to_set node_args
    end in
  result ←
    (if opt_truthy captype then
       try_except_RuntimeError
         (all_nodes ← nodes.get_all_nodes;
          mret (foldl (λ (r : gset string) n,
                         if String.eqb (NodeInfo.captype n) (default "" captype)
                         then r ∪ {[NodeInfo.name n]} else r)
                      result all_nodes))
         echo_and_exit
     else mret result);
  mret (list_of_set result).

(** [itertools.groupby(pods, key=lambda p: p.node)]: runs of consecutive
    pods with the same node. *)
Definition groupby_node (pods : list PodInfo.t) : list (string * list PodInfo.t) :=
  foldr (λ p acc,
           match acc with
           | (k, g) :: rest =>
               if String.eqb (PodInfo.node p) k then (k, p :: g) :: rest
               else (PodInfo.node p, [p]) :: acc
           | [] => [(PodInfo.node p, [p])]
           end) [] pods.

(** [max(len(f(p)) for p in pod_list)] *)
Definition max_len (f : PodInfo.t → string) (pod_list : list PodInfo.t) : Z :=
  foldr (λ p m, Z.max (str.len (f p)) m) 0 pod_list.

Definition _print_pods (pods : list PodInfo.t) (nodes_by_name : gmap string NodeInfo.t)
    : M () :=
  forM_ (groupby_node pods) (λ '(node_name, pod_list),
    let header :=
      match nodes_by_name !! node_name with
      | Some node =>
          NodeInfo.name node +:+ "  (" +:+ NodeInfo.instance_type node +:+ ", "
          +:+ NodeInfo.captype node +:+ ")"
      | None => node_name
      end in
    echo header false ;;
    let ns_w := max_len PodInfo.namespace pod_list in
    let name_w := max_len PodInfo.name pod_list in
    let status_w := max_len PodInfo.status pod_list in
    forM_ pod_list (λ p,
      let restart_str :=
        if 0 <? PodInfo.restarts p
        then "  restarts=" +:+ pretty (PodInfo.restarts p) else "" in
      echo ("  " +:+ str.ljust (PodInfo.namespace p) ns_w +:+ "  "
            +:+ str.ljust (PodInfo.name p) name_w +:+ "  "
            +:+ str.ljust (PodInfo.status p) status_w +:+ restart_str) false) ;;
    echo "" false).

(** [{n.name: n for n in all_nodes}] *)
Definition by_name (all_nodes : list NodeInfo.t) : gmap string NodeInfo.t :=
  foldl (λ m n, <[NodeInfo.name n := n]> m) ∅ all_nodes.

Definition unknown_nodes (node_list : list string) (nodes_by_name : gmap string NodeInfo.t)
    : list string :=
  filter (λ n, nodes_by_name !! n = None) node_list.

Definition pods_cmd (nodes : list string) (captype : option string)
    (include_daemonsets : bool) : M () :=
  node_list ← _resolve_nodes nodes captype;
  when_ (bool_decide (node_list = []))
    (echo "No nodes specified. Provide node names and/or --captype (e.g. -c spot)." true ;;
     sys_exit 1) ;;
  nodes_by_name ←
    try_except_RuntimeError
      (all_nodes ← nodes.get_all_nodes; mret (by_name all_nodes))
      echo_and_exit;
  let unknown := unknown_nodes node_list nodes_by_name in
  when_ (negb (bool_decide (unknown = [])))
    (echo ("Unknown node(s): " +:+ str.join ", " unknown) true ;; sys_exit 1) ;;
  pods ←
    try_except_RuntimeError
      (nodes.get_pods_for_nodes node_list include_daemonsets)
      echo_and_exit;
  match pods with
  | [] => echo "No pods found on the specified node(s)." false
  | _ =>
      _print_pods pods nodes_by_name ;;
      let node_count : gset string := list_to_set (PodInfo.node <$> pods) in
      echo (pretty (Z.of_nat (length pods)) +:+ " pod(s) on "
            +:+ pretty (Z.of_nat (size node_count)) +:+ " node(s)") false
  end.

(** *** [scale_cmd] *)

Section scale.
Context (ctx : ClusterContext).
Context (cluster : string) (region profile : option string).
Context (min_size max_size desired_size : option Z).

(** The node groups the command targets (the [try] block that
    resolves [names]). *)
Definition scale_targets (nodegroup : option string) (scale_all : bool)
    (captype : option string) : M (list string) :=
  if scale_all || opt_truthy captype then
    all_names ← aws.list_nodegroups cluster region profile;
    when_ (bool_decide (all_names = []))
      (echo "No managed node groups in this cluster." true ;; sys_exit 1) ;;
    if opt_truthy captype then
      names ← M_foldM (λ names ng_name,
                 info ← aws.get_nodegroup_info cluster ng_name region profile;
                 match info with
                 | Some i =>
                     if String.eqb (NodeGroupInfo.capacity_type i) (default "" captype)
                     then mret (names ++ [ng_name]) else mret names
                 | None => mret names
                 end) [] all_names;
      when_ (bool_decide (names = []))
        (echo ("No managed node groups with capacity type '" +:+ default "" captype
               +:+ "'.") true ;; sys_exit 1) ;;
      mret names
    else mret all_names
  else
    let ng := default "" nodegroup in
    info ← aws.get_nodegroup_info cluster ng region profile;
    match info with
    | Some _ => mret [ng]
    | None =>
        echo ("Node group '" +:+ ng +:+ "' not found or not accessible.") true ;;
        sys_exit 1
    end.

(** What the final loop does for one group, up to its result. *)
Definition scale_group (ng : string) : M (Z * string) :=
  echo ("=> aws eks update-nodegroup-config --cluster-name " +:+ cluster
        +:+ " --nodegroup-name " +:+ ng) false ;;
  r ← aws.update_nodegroup_scaling cluster ng region profile
        min_size max_size desired_size;
  when_ (str.truthy r.2) (echo r.2 (negb (r.1 =? 0))) ;;
  mret r.

(** The body of the final loop: [failed] counts the non-zero results. *)
Definition scale_step (failed : Z) (ng : string) : M Z :=
  r ← scale_group ng;
  mret (if negb (r.1 =? 0) then failed + 1 else failed).

(** [sorted(names)] *)
Definition sorted (names : list string) : list string :=
  sort_by id String.ltb names.

(** The final loop and the exit status. *)
Definition scale_apply (names : list string) : M () :=
  failed ← M_foldM scale_step 0 (sorted names);
  sys_exit (if negb (failed =? 0) then 1 else 0).

End scale.

Definition scale_cmd (ctx : ClusterContext) (nodegroup : option string) (scale_all : bool)
    (captype : option string) (min_size max_size desired_size : option Z) : M () :=
  when_ (bool_decide (min_size = None ∧ max_size = None ∧ desired_size = None))
    (echo "Specify at least one of --min, --max, or --desired." true ;; sys_exit 1) ;;
  when_ (opt_truthy nodegroup && (scale_all || opt_truthy captype))
    (echo "Cannot specify nodegroup name together with --all or --captype." true ;;
     sys_exit 1) ;;
  when_ (scale_all && opt_truthy captype)
    (echo "Cannot specify both --all and --captype." true ;; sys_exit 1) ;;
  when_ (negb (opt_truthy nodegroup) && negb scale_all && negb (opt_truthy captype))
    (echo "Specify a node group name, --all, or --captype." true ;; sys_exit 1) ;;
  c ← try_except_RuntimeError
        (cluster ← get_cluster_name ctx;
         region ← get_cluster_region ctx;
         profile ← get_cluster_profile ctx;
         mret (cluster, region, profile))
        echo_and_exit;
  let '(cluster, region, profile) := c in
  names ← try_except_RuntimeError
            (scale_targets cluster region profile nodegroup scale_all captype)
            echo_and_exit;
  scale_apply cluster region profile min_size max_size desired_size names.

End cli.
End cli.

(** * Vocabulary of the statements *)

(** ** States and commands *)

(** The state after one more command has been started. *)
Definition called (st : State) (cmd : list string) : State :=
  {| calls := calls st ++ [cmd]; echo_out := echo_out st; echo_err := echo_err st |}.

(** The state after one more line on the error, respectively standard,
    output. *)
Definition echoed_err (st : State) (msg : string) : State :=
  {| calls := calls st; echo_out := echo_out st; echo_err := echo_err st ++ [msg] |}.

Definition echoed_out (st : State) (msg : string) : State :=
  {| calls := calls st; echo_out := echo_out st ++ [msg]; echo_err := echo_err st |}.

Definition pods_query : list string := ["kubectl"; "get"; "pods"; "-A"; "-o"; "json"].
Definition nodes_query : list string := ["kubectl"; "get"; "nodes"; "-o"; "json"].

Definition describe_cmd (cluster ng : string) (region profile : option string)
    : list string :=
  aws.aws_cmd ["describe-nodegroup"; "--cluster-name"; cluster; "--nodegroup-name"; ng]
    region profile.

(** A command line that asks the provider to change a scaling
    configuration. *)
Definition is_update_request (cmd : list string) : bool :=
  match cmd with
  | "aws" :: "eks" :: "update-nodegroup-config" :: _ => true
  | _ => false
  end.

(** The commands of a list run one after the other, each result kept. *)
Fixpoint M_mapM {A B} (f : A → M B) (l : list A) : M (list B) :=
  match l with
  | [] => mret []
  | x :: l' => y ← f x; ys ← M_mapM f l'; mret (y :: ys)
  end.

(** ** Labels *)

(** A label that is missing or set to the empty string. *)
Definition unset (labels : gmap string string) (k : string) : Prop :=
  labels !! k = None ∨ labels !! k = Some "".

(** The label dictionary [NodeInfo.from_dict] reads from a node object. *)
Definition labels_of (obj : json) : res (gmap string string) :=
  metadata ← py.get obj "metadata" (JDict ∅);
  labels ← py.get metadata "labels" (JDict ∅);
  py.as_labels labels.

(** ** Inventories *)

(** The items of an inventory document. *)
Definition items_of (d : json) : res (list json) :=
  items ← py.get d "items" (JList []); py.iter items.

(** A query issued in state [st] is answered with a document whose items
    read as [pods], respectively [nodes]. *)
Definition pod_inventory `{Env} (st : State) (pods : list PodInfo.t) : Prop :=
  let r := subprocess_run (calls st) pods_query in
  returncode r = 0 ∧ stdout r ≠ ""
  ∧ ∃ d raw, json_loads (stdout r) = Some d ∧ py.truthy d = true
             ∧ items_of d = Ok raw ∧ res_mapM PodInfo.from_dict raw = Ok pods.

Definition node_inventory `{Env} (st : State) (nodes : list NodeInfo.t) : Prop :=
  let r := subprocess_run (calls st) nodes_query in
  returncode r = 0 ∧ stdout r ≠ ""
  ∧ ∃ d raw, json_loads (stdout r) = Some d ∧ py.truthy d = true
             ∧ items_of d = Ok raw ∧ res_mapM NodeInfo.from_dict raw = Ok nodes.

(** The pods [get_pods_for_nodes] keeps. *)
Definition kept (node_names : list string) (include_daemonsets : bool) (p : PodInfo.t)
    : Prop :=
  PodInfo.node p ∈ node_names
  ∧ (PodInfo.is_daemonset p = true → include_daemonsets = true).

#[global] Instance kept_dec node_names incl p : Decision (kept node_names incl p).
Proof. unfold kept. apply _. Defined.

(** The names the capacity filter adds to the target set. *)
Definition add_matching (c : string) (r : gset string) (n : NodeInfo.t) : gset string :=
  if String.eqb (NodeInfo.captype n) c then r ∪ {[NodeInfo.name n]} else r.

(** ** Order *)

(** [s < t] on strings, character by character. *)
Definition str_lt (s t : string) : Prop := String.compare s t = Lt.

(** The lexicographic order on [(node, namespace, name)]. *)
Definition tuple_le (a b : string * string * string) : Prop :=
  str_lt a.1.1 b.1.1
  ∨ (a.1.1 = b.1.1
     ∧ (str_lt a.1.2 b.1.2
        ∨ (a.1.2 = b.1.2 ∧ (str_lt a.2 b.2 ∨ a.2 = b.2)))).

(** [p] may stand before [q] in a sorted result. *)
Definition pod_le (p q : PodInfo.t) : Prop := tuple_le (PodInfo.key p) (PodInfo.key q).

(** [x] may stand before [y] for the sort: [y]'s key is not smaller. *)
Definition not_after {A K} (key : A → K) (ltb : K → K → bool) (x y : A) : Prop :=
  ltb (key y) (key x) = false.

(** ** Drain output *)

(** A line that carries the pod marker and, in any letter case, the
    eviction marker. *)
Definition eviction_line (line : string) : Prop :=
  (∃ pre post, line = pre +:+ "pod/" +:+ post)
  ∧ (∃ pre marker post,
       line = pre +:+ marker +:+ post ∧ str.lower marker = " evicted").

(** The number of lines [read_output] counts. *)
Definition count_evictions (lines : list string) : Z :=
  Z.of_nat (length (filter (λ l, kubectl.is_eviction_line l = true) lines)).

(** What holds between two steps of the tracker: the lines read so far
    followed by the unread ones are the emitted lines, and the counter
    counts the eviction lines among those read. *)
Definition tracker_inv (lines : list string) (tr : kubectl.Tracker) : Prop :=
  lines = kubectl.output_lines tr ++ kubectl.unread tr
  ∧ kubectl.evicted tr = count_evictions (kubectl.output_lines tr).

(** ** Scaling *)

(** The description of a group cannot be fetched: the command fails,
    prints nothing, or prints something that does not parse to a
    non-empty document. *)
Definition describe_fails `{Env} (r : CompletedProcess) : Prop :=
  returncode r ≠ 0 ∨ stdout r = "" ∨ json_loads (stdout r) = None
  ∨ ∃ d, json_loads (stdout r) = Some d ∧ py.truthy d = false.

(** The description is fetched and reads as [current]. *)
Definition describes `{Env} (ng : string) (r : CompletedProcess)
    (current : NodeGroupInfo.t) : Prop :=
  returncode r = 0 ∧ stdout r ≠ ""
  ∧ ∃ d, json_loads (stdout r) = Some d ∧ py.truthy d = true
         ∧ aws.nodegroup_info_of ng d = Ok current.

(** The line [scale_cmd] prints before it updates a group. *)
Definition scale_header (cluster ng : string) : string :=
  "=> aws eks update-nodegroup-config --cluster-name " +:+ cluster
  +:+ " --nodegroup-name " +:+ ng.

(** The number of failed results. *)
Definition failures (results : list (Z * string)) : Z :=
  Z.of_nat (length (filter (λ r, r.1 ≠ 0) results)).

(** No character of [s] is a comma. *)
Fixpoint comma_free (s : string) : Prop :=
  match s with
  | EmptyString => True
  | String c s' => c ≠ ","%char ∧ comma_free s'
  end.

(** * A sample environment *)

(** [int(x)] on rationals: rounding towards zero. *)
Definition Qtrunc (x : Q) : Z := if Qle_bool 0 x then Qfloor x else Qceiling x.

(** Exact rational arithmetic satisfies the laws asked of floats. *)
#[refine, global] Instance Q_float : PyFloat := {|
  float := Q;
  of_int := inject_Z;
  truediv a b := (inject_Z a / inject_Z b)%Q;
  fmul := Qmult;
  fltb x y := negb (Qle_bool y x);
  fle := Qle;
  trunc := Qtrunc;
|}.
Proof.
  - apply Qle_refl.
  - intros x y Hlt. apply negb_true_iff in Hlt. apply Qlt_le_weak, Qnot_le_lt.
    intros Hle. apply Qle_bool_iff in Hle. congruence.
  - intros w p Hw Hp.
    assert (inject_Z 0 <= inject_Z w)%Q as Hw' by (by rewrite <-Zle_Qle).
    change (inject_Z 0) with 0%Q in Hw'. change (inject_Z 1) with 1%Q in Hp. nra.
  - intros x w Hx. unfold Qtrunc. destruct (Qle_bool 0 x).
    + rewrite <-(Qfloor_Z w). by apply Qfloor_resp_le.
    + rewrite <-(Qceiling_Z w). by apply Qceiling_resp_le.
Defined.

Module demo.

Definition LF : string := String "010"%char "".

(** Two nodes: a spot node and an on-demand node of the managed group
  [main]. *)
Definition node_item (name : string) (labels : gmap string json) : json :=
JDict (<["metadata" := JDict (<["name" := JStr name]> (<["labels" := JDict labels]> ∅))]> ∅).

Definition nodes_doc : json :=
JDict (<["items" := JList [
  node_item "ip-10-0-0-1" (<[Label.capacity_type := JStr "spot"]> ∅);
  node_item "ip-10-0-0-2"
    (<[Label.capacityType := JStr "ON_DEMAND"]> (<[Label.nodegroup := JStr "main"]> ∅))
]]> ∅).

Definition pod_item (ns name node : string) (owner : option string) : json :=
JDict (<["metadata" :=
           JDict (<["namespace" := JStr ns]> (<["name" := JStr name]>
             match owner with
             | Some kind => <["ownerReferences" := JList [JDict (<["kind" := JStr kind]> ∅)]]> ∅
             | None => ∅
             end))]>
      (<["spec" := JDict (<["nodeName" := JStr node]> ∅)]>
      (<["status" := JDict (<["phase" := JStr "Running"]> ∅)]> ∅))).

Definition pods_doc : json :=
JDict (<["items" := JList [
  pod_item "default" "web-1" "ip-10-0-0-2" (Some "ReplicaSet");
  pod_item "kube-system" "kube-proxy-x" "ip-10-0-0-1" (Some "DaemonSet");
  pod_item "default" "api-0" "ip-10-0-0-1" None;
  pod_item "data" "db-0" "ip-10-0-0-9" None
]]> ∅).

Definition nodegroup_doc : json :=
JDict (<["nodegroup" :=
  JDict (<["nodegroupName" := JStr "main"]> (<["status" := JStr "ACTIVE"]>
        (<["capacityType" := JStr "ON_DEMAND"]>
        (<["scalingConfig" :=
             JDict (<["minSize" := JInt 1]> (<["maxSize" := JInt 5]>
                   (<["desiredSize" := JInt 3]> ∅)))]> ∅))))]> ∅).

Definition ok (out : string) : CompletedProcess :=
{| returncode := 0; stdout := out; stderr := "" |}.

Definition failed (err : string) : CompletedProcess :=
{| returncode := 254; stdout := ""; stderr := err |}.

(** The cluster answers node and pod queries (the pod query stops
  answering after five commands), describes the group [main] and
  accepts updates. *)
Definition run (history : list (list string)) (cmd : list string) : CompletedProcess :=
if bool_decide (cmd = nodes_query) then ok "NODES"
else if bool_decide (cmd = pods_query) then
  if bool_decide (length history < 5)%nat then ok "PODS"
  else failed "Unable to connect to the server"
else if bool_decide (cmd = describe_cmd "demo" "main" None None) then ok "NODEGROUP"
else if is_update_request cmd then ok "updated"
else failed "An error occurred (ResourceNotFoundException)".

Definition drain_output : list string :=
["node/ip-10-0-0-1 cordoned" +:+ LF;
 "evicting pod default/api-0" +:+ LF;
 "pod/api-0 evicted" +:+ LF;
 "pod/web-1 Evicted" +:+ LF;
 "pod/db-0 evicted" +:+ LF].

Definition loads (text : string) : option json :=
if String.eqb text "NODES" then Some nodes_doc
else if String.eqb text "PODS" then Some pods_doc
else if String.eqb text "NODEGROUP" then Some nodegroup_doc
else None.

#[global] Instance env : Env := {|
subprocess_run := run;
subprocess_Popen := λ _ _, (drain_output, 0);
json_loads := loads;
list_of_set := elements;
list_of_set_perm := λ s, reflexivity (elements s);
|}.

Definition st0 : State := {| calls := []; echo_out := []; echo_err := [] |}.

End demo.

(** * Properties *)

(** ** Strings *)

Lemma truthy_true (s : string) : str.truthy s = true ↔ s ≠ "".
Proof.
  unfold str.truthy. rewrite negb_true_iff. apply String.eqb_neq.
Qed.

Lemma truthy_false (s : string) : str.truthy s = false ↔ s = "".
Proof.
  unfold str.truthy. rewrite negb_false_iff. apply String.eqb_eq.
Qed.

Lemma opt_truthy_true (o : option string) :
  opt_truthy o = true ↔ ∃ v, o = Some v ∧ v ≠ "".
Proof.
  destruct o as [v|]; simpl.
  - rewrite truthy_true. split; [eauto | intros (? & [= ->] & ?); done].
  - split; [done | intros (? & ? & ?); done].
Qed.

Lemma opt_truthy_false (o : option string) :
  opt_truthy o = false ↔ o = None ∨ o = Some "".
Proof.
  destruct o as [v|]; simpl.
  - rewrite truthy_false. split; [intros ->; auto | intros [?|[= ->]]; done].
  - split; auto.
Qed.

Lemma app_cons a (s t : string) : String a s +:+ t = String a (s +:+ t).
Proof. reflexivity. Qed.

Lemma app_empty_l (s : string) : "" +:+ s = s.
Proof. reflexivity. Qed.

Lemma str_app_assoc (a b c : string) : (a +:+ b) +:+ c = a +:+ (b +:+ c).
Proof. induction a as [|x a IH]; [done|]. rewrite !app_cons. by rewrite IH. Qed.

Lemma prefix_spec (n h : string) :
  String.prefix n h = true ↔ ∃ post, h = n +:+ post.
Proof.
  revert h. induction n as [|a n IH]; intros h.
  - destruct h; simpl; split; eauto.
  - destruct h as [|b h]; simpl.
    + split; [done|]. intros [post Hp]. rewrite app_cons in Hp. discriminate.
    + destruct (ascii_dec a b) as [->|Hne].
      * rewrite IH. split; intros [post Hp]; exists post.
        -- rewrite app_cons. by rewrite Hp.
        -- rewrite app_cons in Hp. by injection Hp.
      * split; [done|]. intros [post Hp]. rewrite app_cons in Hp. congruence.
Qed.

(** [needle in hay] holds exactly when [hay] splits around [needle]. *)
Lemma contains_spec (n h : string) :
  str.contains n h = true ↔ ∃ pre post, h = pre +:+ n +:+ post.
Proof.
  induction h as [|c h IH].
  - change (str.contains n "") with (String.prefix n "" || false).
    rewrite orb_false_r, prefix_spec. split.
    + intros [post Hp]. by exists "", post.
    + intros (pre & post & Hp).
      destruct pre as [|x pre]; [|rewrite app_cons in Hp; discriminate].
      eauto.
  - change (str.contains n (String c h))
      with (String.prefix n (String c h) || str.contains n h).
    rewrite orb_true_iff, prefix_spec, IH. split.
    + intros [[post Hp] | (pre & post & Hp)].
      * by exists "", post.
      * exists (String c pre), post. rewrite app_cons. by rewrite Hp.
    + intros (pre & post & Hp). destruct pre as [|x pre].
      * left. eauto.
      * right. rewrite app_cons in Hp. injection Hp as -> ->. eauto.
Qed.

Lemma lower_app (a b : string) : str.lower (a +:+ b) = str.lower a +:+ str.lower b.
Proof.
  induction a as [|x a IH]; [done|]. rewrite app_cons. simpl. rewrite app_cons.
  by rewrite IH.
Qed.

(** Lower-casing works character by character, so a split of the
    lower-cased string is a split of the string. *)
Lemma lower_split (s a b : string) :
  str.lower s = a +:+ b → ∃ a' b', s = a' +:+ b' ∧ str.lower a' = a ∧ str.lower b' = b.
Proof.
  revert s. induction a as [|x a IH]; intros s Hs.
  - by exists "", s.
  - destruct s as [|c s]; [discriminate|]. simpl in Hs. rewrite app_cons in Hs.
    injection Hs as Hx Hs. destruct (IH _ Hs) as (a' & b' & -> & <- & <-).
    exists (String c a'), b'. simpl. by rewrite Hx.
Qed.

Lemma join_app (l1 l2 : list string) :
  str.join "" (l1 ++ l2) = str.join "" l1 +:+ str.join "" l2.
Proof.
  unfold str.join. induction l1 as [|x l1 IH]; [done|].
  destruct l1 as [|y l1].
  - simpl. destruct l2; simpl; rewrite ?app_empty_l; [|done].
    clear. induction x; [done|]. rewrite app_cons. by f_equal.
  - change ((x :: y :: l1) ++ l2) with (x :: (y :: l1) ++ l2).
    change (String.concat "" (x :: (y :: l1) ++ l2))
      with (x +:+ "" +:+ String.concat "" ((y :: l1) ++ l2)).
    rewrite IH. change (String.concat "" (x :: y :: l1))
      with (x +:+ "" +:+ String.concat "" (y :: l1)).
    rewrite !app_empty_l. by rewrite str_app_assoc.
Qed.

Lemma len_app (s t : string) : str.len (s +:+ t) = str.len s + str.len t.
Proof.
  unfold str.len. induction s as [|c s IH]; [done|].
  change (String c s +:+ t) with (String c (s +:+ t)). simpl String.length. lia.
Qed.

Lemma len_repeat c n : str.len (str.repeat c n) = Z.max 0 n.
Proof.
  unfold str.len, str.repeat.
  assert (∀ k, String.length (string_of_list_ascii (repeat c k)) = k) as ->.
  { induction k; simpl; congruence. }
  lia.
Qed.

(** ** The command monad *)

Lemma M_bind_ok {A B} (m : M A) (f : A → M B) st a st' :
  m st = (Ok a, st') → (m ≫= f) st = f a st'.
Proof. intros Hm. unfold mbind, M_bind. by rewrite Hm. Qed.

Lemma M_bind_raise {A B} (m : M A) (f : A → M B) st e st' :
  m st = (Raise e, st') → (m ≫= f) st = (Raise e, st').
Proof. intros Hm. unfold mbind, M_bind. by rewrite Hm. Qed.

Lemma res_mapM_Forall {A B} (f : A → res B) l l' :
  res_mapM f l = Ok l' → Forall (λ y, ∃ x, f x = Ok y) l'.
Proof.
  revert l'. induction l as [|x l IH]; intros l' Hl; simpl in Hl.
  - injection Hl as <-. constructor.
  - destruct (f x) as [y|] eqn:Hy; [|done]. simpl in Hl.
    destruct (res_mapM f l) as [ys|]; [|done]. injection Hl as <-.
    constructor; eauto.
Qed.

Lemma M_mapM_length {A B} (f : A → M B) l st results st' :
  M_mapM f l st = (Ok results, st') → length results = length l.
Proof.
  revert st results. induction l as [|x l IH]; intros st results; simpl.
  - unfold mret, M_ret. intros Heq. by injection Heq as <- _.
  - unfold mbind, M_bind. destruct (f x st) as [[y|e] st1]; [|done].
    destruct (M_mapM f l st1) as [[ys|e] st2] eqn:Hl; [|done].
    unfold mret, M_ret. intros Heq. injection Heq as <- <-. simpl. f_equal.
    by eapply IH.
Qed.

(** ** Capacity classification *)

Lemma capacity_type_primary (labels : gmap string string) v :
  labels !! Label.capacity_type = Some v → v ≠ "" → _capacity_type labels = v.
Proof.
  intros Hv Hne. unfold _capacity_type.
  assert (opt_truthy (labels !! Label.capacity_type) = true) as ->.
  { apply opt_truthy_true. eauto. }
  by rewrite Hv.
Qed.

Lemma capacity_type_secondary (labels : gmap string string) v :
  unset labels Label.capacity_type →
  labels !! Label.capacityType = Some v → v ≠ "" →
  _capacity_type labels = str.lower (str.replace "_" "-" v).
Proof.
  intros H1%opt_truthy_false Hv Hne. unfold _capacity_type. rewrite H1. simpl.
  assert (opt_truthy (labels !! Label.capacityType) = true) as ->.
  { apply opt_truthy_true. eauto. }
  by rewrite Hv.
Qed.

Lemma capacity_type_tertiary (labels : gmap string string) :
  unset labels Label.capacity_type → unset labels Label.capacityType →
  _capacity_type labels = default "" (labels !! Label.compute_type).
Proof.
  intros H1%opt_truthy_false H2%opt_truthy_false. unfold _capacity_type.
  rewrite H1, H2. simpl. unfold opt_or.
  destruct (opt_truthy (labels !! Label.compute_type)) eqn:E; [done|].
  apply opt_truthy_false in E as [-> | ->]; done.
Qed.

Lemma captype_of_nonempty labels : NodeInfo.captype_of labels ≠ "".
Proof.
  unfold NodeInfo.captype_of, str_or.
  destruct (_ && _); [done|].
  destruct (str.truthy (_capacity_type labels)) eqn:E; [by apply truthy_true|done].
Qed.

(** [from_dict] classifies a node by the labels of its metadata. *)
Lemma from_dict_captype obj node :
  NodeInfo.from_dict obj = Ok node →
  ∃ labels, labels_of obj = Ok labels
            ∧ NodeInfo.captype node = NodeInfo.captype_of labels.
Proof.
  unfold NodeInfo.from_dict, labels_of. intros Hfd.
  repeat match type of Hfd with
         | (?m ≫= _) = Ok _ =>
             let E := fresh "E" in destruct m eqn:E; simpl in Hfd; [|discriminate]
         end.
  injection Hfd as <-. simpl.
  repeat match goal with
         | H : ?m = Ok _ |- context [?m] => rewrite H; simpl
         end.
  eauto.
Qed.

Lemma from_dict_captype_nonempty obj node :
  NodeInfo.from_dict obj = Ok node → NodeInfo.captype node ≠ "".
Proof.
  intros (labels & _ & ->)%from_dict_captype. apply captype_of_nonempty.
Qed.

(** C2 (as amended). For every label mapping the capacity tag follows the
    cascade: the primary capacity-type label's value if it is set and
    non-empty; otherwise the secondary label's value with underscores
    turned into hyphens and lower-cased, if set and non-empty; otherwise
    the compute-type label's value, empty when that label is missing or
    empty.  When the node-group label is set to a non-empty value and the
    tag is non-empty the capacity type is the tag prefixed with "NG/";
    when the node-group label is missing or empty it is the tag itself;
    an empty tag gives the placeholder "-".  The classification is a
    total function, and [NodeInfo.from_dict] applies it to the labels of
    the node object. *)
Theorem capacity_tag_cascade :
  (∀ labels : gmap string string,
     let tag := _capacity_type labels in
     (∀ v, labels !! Label.capacity_type = Some v → v ≠ "" → tag = v)
     ∧ (unset labels Label.capacity_type →
        ∀ v, labels !! Label.capacityType = Some v → v ≠ "" →
             tag = str.lower (str.replace "_" "-" v))
     ∧ (unset labels Label.capacity_type → unset labels Label.capacityType →
        tag = default "" (labels !! Label.compute_type))
     ∧ (∀ g, labels !! Label.nodegroup = Some g → g ≠ "" → tag ≠ "" →
             NodeInfo.captype_of labels = "NG/" +:+ tag)
     ∧ (unset labels Label.nodegroup → tag ≠ "" → NodeInfo.captype_of labels = tag)
     ∧ (tag = "" → NodeInfo.captype_of labels = "-"))
  ∧ (∀ obj node, NodeInfo.from_dict obj = Ok node →
       ∃ labels, labels_of obj = Ok labels
                 ∧ NodeInfo.captype node = NodeInfo.captype_of labels).
Proof.
  split; [|exact from_dict_captype].
  intros labels tag. subst tag.
  split; [apply capacity_type_primary|].
  split; [intros ? v; by apply capacity_type_secondary|].
  split; [apply capacity_type_tertiary|].
  unfold NodeInfo.captype_of, _is_in_nodegroup, str_or.
  split; [|split].
  - intros g Hg Hne Htag.
    assert (opt_truthy (labels !! Label.nodegroup) = true) as ->.
    { apply opt_truthy_true. eauto. }
    apply truthy_true in Htag. by rewrite Htag.
  - intros Hg%opt_truthy_false Htag%truthy_true. by rewrite Hg, Htag.
  - intros Htag. pose proof Htag as Ht%truthy_false. rewrite Ht, andb_false_r. done.
Qed.

(** The on-demand node of the sample cluster: the secondary label is
    normalised and the node-group label adds the prefix. *)
Lemma capacity_tag_cascade_witness :
  let labels : gmap string string :=
    <[Label.capacityType := "ON_DEMAND"]> (<[Label.nodegroup := "main"]> ∅) in
  _capacity_type labels = "on-demand" ∧ NodeInfo.captype_of labels = "NG/on-demand".
Proof.
  intros labels.
  destruct capacity_tag_cascade as [Hcascade _].
  destruct (Hcascade labels) as (_ & Hsecondary & _ & Hprefix & _).
  assert (_capacity_type labels = "on-demand") as Htag.
  { apply (Hsecondary (or_introl eq_refl) "ON_DEMAND"); [reflexivity | discriminate]. }
  split; [exact Htag|].
  rewrite (Hprefix "main"); [by rewrite Htag | reflexivity | discriminate |].
  rewrite Htag. discriminate.
Defined.

(** C2 as stated fails: a node-group label that is present but empty adds
    no prefix although the tag is non-empty. *)
Lemma nodegroup_label_empty_no_prefix :
  let labels : gmap string string :=
    <[Label.nodegroup := ""]> (<[Label.capacity_type := "spot"]> ∅) in
  let node :=
    JDict (<["metadata" :=
               JDict (<["name" := JStr "ip-10-0-0-3"]>
                     (<["labels" :=
                          JDict (<[Label.nodegroup := JStr ""]>
                                (<[Label.capacity_type := JStr "spot"]> ∅))]> ∅))]> ∅) in
  is_Some (labels !! Label.nodegroup)
  ∧ _capacity_type labels = "spot"
  ∧ NodeInfo.captype_of labels = "spot"
  ∧ NodeInfo.captype_of labels ≠ "NG/" +:+ _capacity_type labels
  ∧ labels_of node = Ok labels
  ∧ NodeInfo.captype <$> NodeInfo.from_dict node = Ok "spot".
Proof.
  intros labels node. split; [by exists ""|].
  split; [reflexivity|]. split; [reflexivity|]. split; [discriminate|].
  split; by vm_compute.
Qed.

(** ** Drain progress tracking *)

Lemma is_eviction_line_spec (line : string) :
  kubectl.is_eviction_line line = true ↔ eviction_line line.
Proof.
  unfold kubectl.is_eviction_line, eviction_line.
  rewrite andb_true_iff, !contains_spec. apply and_iff_compat_l. split.
  - intros (pre & post & Hl).
    destruct (lower_split _ _ _ Hl) as (pre' & rest & -> & <- & Hrest).
    destruct (lower_split _ _ _ Hrest) as (m & post' & -> & Hm & <-).
    by exists pre', m, post'.
  - intros (pre & m & post & -> & Hm). exists (str.lower pre), (str.lower post).
    by rewrite !lower_app, Hm.
Qed.

Lemma count_evictions_app (l1 l2 : list string) :
  count_evictions (l1 ++ l2) = count_evictions l1 + count_evictions l2.
Proof. unfold count_evictions. rewrite filter_app, length_app. lia. Qed.

Lemma count_evictions_one (line : string) :
  count_evictions [line] = if kubectl.is_eviction_line line then 1 else 0.
Proof.
  unfold count_evictions. rewrite filter_cons, filter_nil.
  destruct (kubectl.is_eviction_line line); by case_decide.
Qed.

Lemma read_line_spec ev out line :
  kubectl.read_line (ev, out) line = (ev + count_evictions [line], out ++ [line]).
Proof.
  unfold kubectl.read_line. rewrite count_evictions_one. simpl.
  destruct (kubectl.is_eviction_line line); [done|]. by rewrite Z.add_0_r.
Qed.

Lemma foldl_read_line ev out lines :
  foldl kubectl.read_line (ev, out) lines = (ev + count_evictions lines, out ++ lines).
Proof.
  revert ev out. induction lines as [|l lines IH]; intros ev out; simpl.
  - by rewrite app_nil_r, Z.add_0_r.
  - rewrite read_line_spec, IH. change (l :: lines) with ([l] ++ lines).
    rewrite count_evictions_app, <-(assoc_L (++)). f_equal. lia.
Qed.

Lemma read_output_spec lines :
  kubectl.read_output lines = (count_evictions lines, lines).
Proof. unfold kubectl.read_output. by rewrite foldl_read_line. Qed.

Section tracker.
Context `{PyFloat}.
Implicit Types tr : kubectl.Tracker.

Lemma tracker_inv_init lines : tracker_inv lines (kubectl.tracker_init lines).
Proof. by split. Qed.

Lemma tracker_inv_step total lines tr tr' :
  tracker_inv lines tr → kubectl.tracker_step total tr tr' → tracker_inv lines tr'.
Proof.
  intros [Hl He] Hstep. destruct Hstep as [line rest ev out disp | tr msg Hmsg].
  - unfold tracker_inv. simpl in *. rewrite read_line_spec. simpl. split.
    + rewrite Hl. by rewrite <-(assoc_L (++)).
    + rewrite count_evictions_app. by rewrite He.
  - by split.
Qed.

Lemma tracker_inv_reachable total lines tr :
  rtc (kubectl.tracker_step total) (kubectl.tracker_init lines) tr →
  tracker_inv lines tr.
Proof.
  intros Hrun. eapply (rtc_ind_r (tracker_inv lines)); [| |exact Hrun].
  - apply tracker_inv_init.
  - intros y z _ Hstep IH. by eapply tracker_inv_step.
Qed.

Lemma tracker_step_monotone total tr tr' :
  kubectl.tracker_step total tr tr' → kubectl.evicted tr ≤ kubectl.evicted tr'.
Proof.
  intros [line rest ev out disp | tr0 msg Hmsg]; simpl; [|lia].
  rewrite read_line_spec. simpl. unfold count_evictions. lia.
Qed.

(** The reader can always run to the end of the stream. *)
Lemma tracker_can_finish total tr :
  ∃ tr', rtc (kubectl.tracker_step total) tr tr' ∧ kubectl.tracker_done tr'.
Proof.
  destruct tr as [un ev out disp]. revert ev out.
  induction un as [|line rest IH]; intros ev out.
  - eexists. split; [apply rtc_refl | done].
  - destruct (IH (kubectl.read_line (ev, out) line).1
                 (kubectl.read_line (ev, out) line).2) as (tr' & Hrun & Hdone).
    exists tr'. split; [|done].
    eapply rtc_l; [apply kubectl.reader_step | exact Hrun].
Qed.
End tracker.

Lemma drain_nodes_progress `{Env} node_names ids ded ie st total st1 :
  node_names ≠ [] →
  kubectl.count_pods_on_nodes node_names st = (Ok total, st1) →
  let cmd := "kubectl" :: kubectl.drain_args ids ded ie node_names in
  let proc := subprocess_Popen (calls st1) cmd in
  kubectl.drain_nodes node_names ids ded ie true st
  = (Ok (proc.2, str.join "" proc.1), called st1 cmd).
Proof.
  intros Hne Hcount cmd proc. unfold kubectl.drain_nodes.
  destruct node_names as [|n ns]; [done|]. cbn [negb].
  rewrite (M_bind_ok _ _ _ _ _ Hcount).
  erewrite (M_bind_ok (Popen _)); [|reflexivity].
  fold cmd proc. rewrite read_output_spec. unfold mret, M_ret. do 2 f_equal.
  destruct (Z.eqb_spec proc.2 0) as [->|]; done.
Qed.

(** C1. Whatever lines the drain process emits, once the reader has
    consumed the stream the eviction counter is the number of lines that
    contain "pod/" and, in any letter case, " evicted", and the captured
    output is the concatenation of the emitted lines in emission order.
    This holds for the reader run on its own and for every interleaving
    of the reader with the progress display; the counter never decreases;
    the end of the stream can always be reached; and [drain_nodes]
    returns the process status with that output. *)
Theorem drain_eviction_tracking `{PyFloat} (lines : list string) :
  (∀ line, kubectl.is_eviction_line line = true ↔ eviction_line line)
  ∧ kubectl.read_output lines = (count_evictions lines, lines)
  ∧ (∀ total tr,
       rtc (kubectl.tracker_step total) (kubectl.tracker_init lines) tr →
       (∀ tr', kubectl.tracker_step total tr tr' →
               kubectl.evicted tr ≤ kubectl.evicted tr')
       ∧ (∃ tr', rtc (kubectl.tracker_step total) tr tr' ∧ kubectl.tracker_done tr')
       ∧ (kubectl.tracker_done tr →
          kubectl.evicted tr = count_evictions lines
          ∧ kubectl.output_lines tr = lines
          ∧ str.join "" (kubectl.output_lines tr) = str.join "" lines))
  ∧ (∀ (E : Env) node_names ids ded ie st total st1 rc,
       node_names ≠ [] →
       kubectl.count_pods_on_nodes node_names st = (Ok total, st1) →
       subprocess_Popen (calls st1) ("kubectl" :: kubectl.drain_args ids ded ie node_names)
       = (lines, rc) →
       (kubectl.drain_nodes node_names ids ded ie true st).1
       = Ok (rc, str.join "" lines)).
Proof.
  split; [exact is_eviction_line_spec|].
  split; [apply read_output_spec|].
  split.
  - intros total tr Hrun. split; [|split].
    + intros tr'. apply tracker_step_monotone.
    + apply tracker_can_finish.
    + intros Hdone. destruct (tracker_inv_reachable _ _ _ Hrun) as [Hl He].
      red in Hdone. rewrite Hdone, app_nil_r in Hl. by rewrite He, <-Hl.
  - intros E node_names ids ded ie st total st1 rc Hne Hcount Hproc.
    rewrite (drain_nodes_progress _ _ _ _ _ _ _ Hne Hcount). simpl. by rewrite Hproc.
Qed.

(** Five lines, three of them evictions (one spelled "Evicted"): the
    counter ends at 3 and the drain of the sample cluster returns the five
    lines in order. *)
Lemma drain_eviction_tracking_witness :
  kubectl.read_output demo.drain_output = (3, demo.drain_output)
  ∧ (kubectl.drain_nodes ["ip-10-0-0-1"] true true false true demo.st0).1
    = Ok (0, str.join "" demo.drain_output).
Proof.
  destruct (drain_eviction_tracking (H := Q_float) demo.drain_output)
    as (_ & Hread & _ & Hdrain).
  split; [exact Hread|].
  apply (Hdrain demo.env ["ip-10-0-0-1"] true true false demo.st0 1
           (called demo.st0 pods_query) 0);
    [discriminate | by vm_compute | reflexivity].
Defined.

(** ** Progress display *)

Section progress.
Context `{PyFloat}.

Lemma min_one_le x : fle (kubectl.min_one x) (of_int 1).
Proof.
  unfold kubectl.min_one. destruct (fltb x (of_int 1)) eqn:E.
  - by apply fltb_fle.
  - apply fle_refl.
Qed.

Lemma progress_filled_ok evicted total width :
  total ≠ 0 → 0 ≤ width →
  ∃ q, kubectl.py_truediv evicted total = Ok q
       ∧ kubectl.progress_filled evicted total width
         = Ok (trunc (fmul (of_int width) (kubectl.min_one q)))
       ∧ trunc (fmul (of_int width) (kubectl.min_one q)) ≤ width.
Proof.
  intros Ht Hw. unfold kubectl.progress_filled, kubectl.py_truediv.
  destruct (Z.eqb_spec total 0) as [?|_]; [done|]. simpl.
  eexists. split; [done|]. split; [done|].
  apply trunc_fle, fmul_fle; [done | apply min_one_le].
Qed.
End progress.

(** A bar of at most [width] filled cells is exactly [width] cells long. *)
Lemma progress_bar_len evicted total width filled :
  0 < width → filled ≤ width →
  str.len (kubectl.progress_bar evicted total width filled) = width.
Proof.
  intros Hw Hf. unfold kubectl.progress_bar, str.ljust. cbv zeta.
  rewrite !len_app, !len_repeat.
  destruct (Z.ltb_spec filled width); cbn [andb]; [destruct (evicted <? total)|].
  all: lia.
Qed.

Lemma count_pods_query_failed `{Env} node_names st :
  let r := subprocess_run (calls st) pods_query in
  returncode r ≠ 0 ∨ stdout r = "" ∨ json_loads (stdout r) = None →
  (kubectl.count_pods_on_nodes node_names st).1 = Ok 0.
Proof.
  intros r Hfail. unfold kubectl.count_pods_on_nodes.
  destruct node_names as [|n ns]; [done|].
  erewrite (M_bind_ok (kubectl.run_kubectl _)); [|reflexivity]. fold pods_query r.
  destruct (Z.eqb_spec (returncode r) 0) as [Hrc|]; [|done].
  destruct (str.truthy (stdout r)) eqn:Hout; [|done]. simpl.
  destruct Hfail as [?|[Hempty| ->]]; [done| |done].
  rewrite Hempty in Hout. done.
Qed.

(** C5. Progress display never aborts the drain.  When the pod count
    query fails (non-zero exit, empty output, or output that does not
    parse) the total is 0, not an error.  For a total of 0 or less the
    formatter returns the indeterminate message; it returns a message for
    all arguments, so no division by zero ever happens.  For a positive
    total the fraction passed on is at most 1.0, the number of filled
    cells is at most the width, and the bar between the brackets is
    exactly as long as the width. *)
Theorem progress_best_effort `{Env} `{PyFloat} :
  (∀ node_names st,
     let r := subprocess_run (calls st) pods_query in
     returncode r ≠ 0 ∨ stdout r = "" ∨ json_loads (stdout r) = None →
     (kubectl.count_pods_on_nodes node_names st).1 = Ok 0)
  ∧ (∀ evicted total width,
       total ≤ 0 → kubectl._format_progress evicted total width = Ok kubectl.indeterminate)
  ∧ (∀ evicted total width, ∃ msg, kubectl._format_progress evicted total width = Ok msg)
  ∧ (∀ evicted total width,
       0 < total → 0 < width →
       ∃ q filled,
         kubectl.py_truediv evicted total = Ok q
         ∧ fle (kubectl.min_one q) (of_int 1)
         ∧ filled = trunc (fmul (of_int width) (kubectl.min_one q))
         ∧ filled ≤ width
         ∧ str.len (kubectl.progress_bar evicted total width filled) = width
         ∧ kubectl._format_progress evicted total width
           = Ok ("Draining... [" +:+ kubectl.progress_bar evicted total width filled
                 +:+ "] " +:+ pretty evicted +:+ "/" +:+ pretty total
                 +:+ " pods evicted")).
Proof.
  split; [intros; by apply count_pods_query_failed|].
  split.
  { intros evicted total width Ht. unfold kubectl._format_progress.
    by destruct (Z.leb_spec total 0); [|lia]. }
  split.
  { intros evicted total width. unfold kubectl._format_progress.
    destruct (Z.leb_spec total 0) as [|Ht]; [eauto|].
    unfold kubectl.progress_filled, kubectl.py_truediv.
    destruct (Z.eqb_spec total 0) as [|_]; [lia|]. simpl. eauto. }
  intros evicted total width Ht Hw.
  destruct (progress_filled_ok evicted total width) as (q & Hq & Hf & Hle); [lia|lia|].
  exists q, (trunc (fmul (of_int width) (kubectl.min_one q))).
  split; [done|]. split; [apply min_one_le|]. split; [done|]. split; [done|].
  split; [by apply progress_bar_len|].
  unfold kubectl._format_progress. destruct (Z.leb_spec total 0); [lia|].
  by rewrite Hf.
Qed.

(** In the sample cluster the pod query fails once five commands have run:
    the count is then 0.  With rational arithmetic, 9 evictions out of 7
    still fill no more than the 30 cells. *)
Lemma progress_best_effort_witness :
  (kubectl.count_pods_on_nodes ["ip-10-0-0-1"]
     {| calls := replicate 5 nodes_query; echo_out := []; echo_err := [] |}).1 = Ok 0
  ∧ kubectl._format_progress 3 0 30 = Ok "Draining... (evicting pods)"
  ∧ kubectl._format_progress 9 7 30
    = Ok "Draining... [==============================] 9/7 pods evicted".
Proof.
  destruct (progress_best_effort (H := demo.env) (H0 := Q_float))
    as (Hcount & Hzero & _ & Hbar).
  split; [|split].
  - apply Hcount. left. by vm_compute.
  - apply Hzero. lia.
  - destruct (Hbar 9 7 30) as (q & filled & Hq & _ & -> & _ & _ & ->); [lia..|].
    injection Hq as <-. by vm_compute.
Defined.

(** ** Empty target lists *)

(** C9. With no target node, cordon, uncordon and drain return exit code
    0 and empty output and leave the state, and so the list of started
    commands, unchanged. *)
Theorem empty_targets_are_noops `{Env} st ids ded ie sp :
  kubectl.cordon_nodes [] st = (Ok (0, ""), st)
  ∧ kubectl.uncordon_nodes [] st = (Ok (0, ""), st)
  ∧ kubectl.drain_nodes [] ids ded ie sp st = (Ok (0, ""), st).
Proof. done. Qed.

(** ** Ordering of strings and of sort keys *)

Lemma compare_refl (s : string) : String.compare s s = Eq.
Proof.
  induction s as [|c s IH]; [done|]. simpl.
  unfold Ascii.compare. by rewrite N.compare_refl.
Qed.

Lemma compare_eq (s t : string) : String.compare s t = Eq ↔ s = t.
Proof. split; [apply String.compare_eq_iff | intros ->; apply compare_refl]. Qed.

Lemma compare_gt_lt (s t : string) : String.compare s t = Gt ↔ String.compare t s = Lt.
Proof. rewrite (String.compare_antisym t s). destruct (String.compare s t); naive_solver. Qed.

Lemma compare_lt_trans (a b c : string) :
  String.compare a b = Lt → String.compare b c = Lt → String.compare a c = Lt.
Proof.
  intros Hab Hbc.
  assert (String.le a b) as Lab by (unfold String.le, String.leb; by rewrite Hab).
  assert (String.le b c) as Lbc by (unfold String.le, String.leb; by rewrite Hbc).
  assert (String.le a c) as Lac by (by etrans).
  unfold String.le, String.leb in Lac.
  destruct (String.compare a c) eqn:Hac; [|done|done].
  apply compare_eq in Hac as ->. apply compare_gt_lt in Hbc. congruence.
Qed.

Ltac cmp_cases :=
  repeat match goal with
    | H : String.compare _ _ = Eq |- _ => apply compare_eq in H; subst
    | H : context [String.compare ?s ?s] |- _ => rewrite compare_refl in H
    | |- context [String.compare ?s ?s] => rewrite compare_refl
    | H : String.compare ?a ?b = Gt |- _ => apply compare_gt_lt in H
    | H1 : String.compare ?a ?b = Lt, H2 : String.compare ?b ?a = Lt |- _ =>
        pose proof (compare_lt_trans _ _ _ H1 H2) as Hbad;
        rewrite compare_refl in Hbad; discriminate
    | H : ?x = ?x |- _ => clear H
    | H : Lt = Eq |- _ => discriminate
    | H : Eq = Lt |- _ => discriminate
    end.

Lemma key_ltb_irrefl k : key_ltb k k = false.
Proof. unfold key_ltb, key_compare. by rewrite !compare_refl. Qed.

(** The comparison the sort uses is the lexicographic order of the
    statement: [b] is not smaller than [a] exactly when [a ≤ b]. *)
Lemma key_ltb_spec a b : key_ltb b a = false ↔ tuple_le a b.
Proof.
  destruct a as [[a1 a2] a3], b as [[b1 b2] b3].
  unfold key_ltb, key_compare, tuple_le, str_lt. simpl.
  destruct (String.compare b1 a1) eqn:E1; cmp_cases;
    [destruct (String.compare b2 a2) eqn:E2; cmp_cases;
      [destruct (String.compare b3 a3) eqn:E3; cmp_cases|..]|..].
  all: split; [intros ?; try done; naive_solver|].
  all: intros ?; repeat (destruct_or?; destruct_and?); subst; cmp_cases; done.
Qed.

Lemma key_ltb_asym a b : key_ltb a b = true → key_ltb b a = false.
Proof.
  intros Hab. destruct (key_ltb b a) eqn:Hba; [|done].
  exfalso. revert Hab Hba.
  destruct a as [[a1 a2] a3], b as [[b1 b2] b3]. unfold key_ltb, key_compare. simpl.
  destruct (String.compare a1 b1) eqn:E1; cmp_cases; try done;
    [destruct (String.compare a2 b2) eqn:E2; cmp_cases; try done;
      [destruct (String.compare a3 b3) eqn:E3; cmp_cases; try done|]|].
  - rewrite (proj2 (compare_gt_lt b3 a3)); done.
  - rewrite (proj2 (compare_gt_lt b2 a2)); done.
  - rewrite (proj2 (compare_gt_lt b1 a1)); done.
Qed.

Lemma tuple_le_trans a b c : tuple_le a b → tuple_le b c → tuple_le a c.
Proof.
  destruct a as [[a1 a2] a3], b as [[b1 b2] b3], c as [[c1 c2] c3].
  unfold tuple_le, str_lt. simpl. intros H1 H2.
  destruct H1 as [H1|[-> H1]], H2 as [H2|[-> H2]];
    [left; by eapply compare_lt_trans | by left | by left | right; split; [done|]].
  destruct H1 as [H1|[-> H1]], H2 as [H2|[-> H2]];
    [left; by eapply compare_lt_trans | by left | by left | right; split; [done|]].
  destruct H1 as [H1| ->], H2 as [H2| ->];
    [left; by eapply compare_lt_trans | by left | by left | by right].
Qed.

(** ** The stable sort *)

Lemma Sorted_weaken {A} (R R' : relation A) l :
  (∀ x y, R x y → R' x y) → Sorted R l → Sorted R' l.
Proof.
  intros HR Hs. induction Hs as [|x l Hs IH Hhd]; constructor; [done|].
  destruct Hhd; constructor. by apply HR.
Qed.

Section stable_sort_props.
Context {A K : Type} `{EqDecision K} (key : A → K) (ltb : K → K → bool).
Context (ltb_irrefl : ∀ k, ltb k k = false).
Context (ltb_asym : ∀ a b, ltb a b = true → ltb b a = false).

Lemma sort_insert_perm x l : sort_insert key ltb x l ≡ₚ x :: l.
Proof.
  induction l as [|y l IH]; simpl; [done|].
  destruct (ltb (key y) (key x)); [|done]. rewrite IH. apply Permutation_swap.
Qed.

Lemma sort_by_perm l : sort_by key ltb l ≡ₚ l.
Proof.
  induction l as [|x l IH]; simpl; [done|]. by rewrite sort_insert_perm, IH.
Qed.

Lemma sort_insert_hd y x l :
  HdRel (not_after key ltb) y l → not_after key ltb y x →
  HdRel (not_after key ltb) y (sort_insert key ltb x l).
Proof.
  intros Hhd Hyx. destruct l as [|z l]; simpl; [by constructor|].
  destruct (ltb (key z) (key x)); constructor; [|done]. by inversion Hhd.
Qed.

Lemma sort_insert_sorted x l :
  Sorted (not_after key ltb) l → Sorted (not_after key ltb) (sort_insert key ltb x l).
Proof.
  induction l as [|y l IH]; intros Hs; simpl.
  - by repeat constructor.
  - destruct (ltb (key y) (key x)) eqn:E.
    + inversion Hs as [|?? Hs' Hhd]; subst. constructor; [by apply IH|].
      apply sort_insert_hd; [done|]. by apply ltb_asym.
    + constructor; [done|]. by constructor.
Qed.

Lemma sort_by_sorted l : Sorted (not_after key ltb) (sort_by key ltb l).
Proof.
  induction l as [|x l IH]; simpl; [constructor|]. by apply sort_insert_sorted.
Qed.

(** Stability: the elements with a given key keep their order. *)
Lemma sort_insert_stable k x l :
  filter (λ y, key y = k) (sort_insert key ltb x l) = filter (λ y, key y = k) (x :: l).
Proof.
  induction l as [|y l IH]; simpl; [done|].
  destruct (ltb (key y) (key x)) eqn:E; [|done].
  rewrite filter_cons, IH, !filter_cons.
  destruct (decide (key y = k)) as [Hy|]; [|done].
  destruct (decide (key x = k)) as [Hx|]; [|done].
  rewrite Hy, Hx, ltb_irrefl in E. done.
Qed.

Lemma sort_by_stable k l :
  filter (λ y, key y = k) (sort_by key ltb l) = filter (λ y, key y = k) l.
Proof.
  induction l as [|x l IH]; simpl; [done|].
  by rewrite sort_insert_stable, !filter_cons, IH.
Qed.
End stable_sort_props.

(** ** Pods of a node set *)

Lemma collect_pod_ok node_set incl acc item pod :
  PodInfo.from_dict item = Ok pod →
  nodes.collect_pod node_set incl acc item
  = Ok (if negb (bool_decide (PodInfo.node pod ∈ node_set)) then acc
        else if PodInfo.is_daemonset pod && negb incl then acc else acc ++ [pod]).
Proof.
  intros Hpod. unfold nodes.collect_pod. rewrite Hpod. simpl.
  by repeat destruct (_ : bool).
Qed.

(** The loop of [get_pods_for_nodes] reads every item and keeps the pods
    on the requested nodes, daemon-managed ones only on request. *)
Lemma collect_pods_spec node_names incl acc raw pods :
  res_mapM PodInfo.from_dict raw = Ok pods →
  res_foldM (nodes.collect_pod (list_to_set node_names) incl) acc raw
  = Ok (acc ++ filter (kept node_names incl) pods).
Proof.
  revert acc pods. induction raw as [|item raw IH]; intros acc pods Hp; simpl in *.
  - injection Hp as <-. by rewrite filter_nil, app_nil_r.
  - destruct (PodInfo.from_dict item) as [pod|] eqn:Hpod; [|done]. simpl in Hp.
    destruct (res_mapM PodInfo.from_dict raw) as [pods'|] eqn:Hpods; [|done].
    injection Hp as <-. rewrite (collect_pod_ok _ _ _ _ _ Hpod). simpl.
    rewrite filter_cons.
    destruct (decide (kept node_names incl pod)) as [[Hin Hds]|Hn].
    + rewrite bool_decide_true by (by apply elem_of_list_to_set). simpl.
      assert (PodInfo.is_daemonset pod && negb incl = false) as ->.
      { destruct (PodInfo.is_daemonset pod), incl; naive_solver. }
      rewrite (IH _ _ eq_refl). by rewrite <-(assoc_L (++)).
    + assert ((if negb (bool_decide
                   (PodInfo.node pod ∈ (list_to_set node_names : gset string)))
               then acc
               else if PodInfo.is_daemonset pod && negb incl then acc else acc ++ [pod])
              = acc) as ->.
      { case_bool_decide as Hin; simpl; [|done]. apply elem_of_list_to_set in Hin.
        destruct (PodInfo.is_daemonset pod) eqn:Hds, incl; simpl; try done;
          exfalso; apply Hn; split; naive_solver. }
      by rewrite (IH _ _ eq_refl).
Qed.

Lemma get_pods_json_ok `{Env} st d :
  let r := subprocess_run (calls st) pods_query in
  returncode r = 0 → stdout r ≠ "" → json_loads (stdout r) = Some d →
  kubectl.get_pods_json st = (Ok (Some d), called st pods_query).
Proof.
  intros r Hrc Hout Hd. unfold kubectl.get_pods_json.
  erewrite (M_bind_ok (kubectl.run_kubectl _)); [|reflexivity]. fold pods_query r.
  rewrite Hrc. assert (str.truthy (stdout r) = true) as -> by (by apply truthy_true).
  simpl. by rewrite Hd.
Qed.

Lemma get_pods_for_nodes_ok `{Env} node_names incl st pods :
  node_names ≠ [] → pod_inventory st pods →
  nodes.get_pods_for_nodes node_names incl st
  = (Ok (sort_by PodInfo.key key_ltb (filter (kept node_names incl) pods)),
     called st pods_query).
Proof.
  intros Hne (Hrc & Hout & d & raw & Hd & Ht & Hraw & Hpods).
  unfold nodes.get_pods_for_nodes. destruct node_names as [|n ns]; [done|].
  erewrite M_bind_ok; [|by apply get_pods_json_ok]. cbv beta iota. rewrite Ht.
  unfold items_of in Hraw.
  destruct (py.get d "items" (JList [])) as [items|] eqn:Hitems; [|done]. simpl in Hraw.
  erewrite (M_bind_ok (lift _)); [done|].
  unfold lift, mbind, res_bind. rewrite Hraw.
  by rewrite (collect_pods_spec _ _ _ _ _ Hpods).
Qed.

(** C3. For an empty list of node names [get_pods_for_nodes] returns the
    empty list and starts no command.  For a non-empty list and a pod
    inventory that reads as [pods], the result contains exactly the pods
    whose node is among the requested names, without the daemon-managed
    pods unless they are asked for; it is a rearrangement of those pods,
    in ascending lexicographic order of (node, namespace, name), and pods
    with equal keys keep their inventory order. *)
Theorem pods_for_nodes_filter_sort `{Env} node_names incl st pods :
  nodes.get_pods_for_nodes [] incl st = (Ok [], st)
  ∧ (node_names ≠ [] → pod_inventory st pods →
     ∃ result,
       nodes.get_pods_for_nodes node_names incl st = (Ok result, called st pods_query)
       ∧ (∀ p, p ∈ result ↔
               p ∈ pods ∧ PodInfo.node p ∈ node_names
               ∧ (PodInfo.is_daemonset p = true → incl = true))
       ∧ result ≡ₚ filter (kept node_names incl) pods
       ∧ StronglySorted pod_le result
       ∧ (∀ k, filter (λ p, PodInfo.key p = k) result
               = filter (λ p, PodInfo.key p = k) (filter (kept node_names incl) pods))).
Proof.
  split; [done|]. intros Hne Hinv. eexists. split; [by apply get_pods_for_nodes_ok|].
  assert (sort_by PodInfo.key key_ltb (filter (kept node_names incl) pods)
          ≡ₚ filter (kept node_names incl) pods) as Hperm by apply sort_by_perm.
  split; [|split; [done|split]].
  - intros p. rewrite Hperm, list_elem_of_filter. unfold kept. tauto.
  - apply Sorted_StronglySorted.
    { intros p q r. apply tuple_le_trans. }
    eapply Sorted_weaken; [|apply (sort_by_sorted PodInfo.key key_ltb key_ltb_asym)].
    intros p q Hpq. by apply key_ltb_spec.
  - intros k. apply sort_by_stable, key_ltb_irrefl.
Qed.

(** The pods of the sample cluster on its two nodes, daemon-managed pods
    left out: [api-0] on the first node, then [web-1] on the second. *)
Lemma pods_for_nodes_filter_sort_witness :
  ∃ pods result,
    pod_inventory demo.st0 pods
    ∧ nodes.get_pods_for_nodes ["ip-10-0-0-2"; "ip-10-0-0-1"] false demo.st0
      = (Ok result, called demo.st0 pods_query)
    ∧ PodInfo.name <$> result = ["api-0"; "web-1"]
    ∧ StronglySorted pod_le result.
Proof.
  assert (∃ pods, pod_inventory (H := demo.env) demo.st0 pods
                  ∧ PodInfo.name <$> pods = ["web-1"; "kube-proxy-x"; "api-0"; "db-0"])
    as (pods & Hinv & Hnames).
  { eexists. split.
    - split; [reflexivity|]. split; [discriminate|].
      eexists _, _. split; [reflexivity|]. split; [reflexivity|].
      split; [reflexivity|]. by vm_compute.
    - reflexivity. }
  destruct (pods_for_nodes_filter_sort (H := demo.env)
              ["ip-10-0-0-2"; "ip-10-0-0-1"] false demo.st0 pods)
    as (_ & Hkept).
  destruct (Hkept ltac:(discriminate) Hinv) as (result & Hres & _ & _ & Hsorted & _).
  exists pods, result. split; [exact Hinv|]. split; [exact Hres|]. split; [|exact Hsorted].
  assert (nodes.get_pods_for_nodes (H := demo.env) ["ip-10-0-0-2"; "ip-10-0-0-1"] false
            demo.st0 = (Ok result, called demo.st0 pods_query)) as Hres' by exact Hres.
  vm_compute in Hres'. injection Hres' as <-. reflexivity.
Defined.

(** ** Node inventory and target resolution *)

Lemma get_nodes_json_run `{Env} st :
  kubectl.get_nodes_json st
  = (let r := subprocess_run (calls st) nodes_query in
     Ok (if negb (returncode r =? 0) || negb (str.truthy (stdout r))
         then None else json_loads (stdout r)),
     called st nodes_query).
Proof.
  unfold kubectl.get_nodes_json.
  erewrite (M_bind_ok (kubectl.run_kubectl _)); [|reflexivity]. fold nodes_query.
  by destruct (negb _ || negb _).
Qed.

(** [get_all_nodes] starts the node query and nothing else. *)
Lemma get_all_nodes_state `{Env} st r st' :
  nodes.get_all_nodes st = (r, st') → st' = called st nodes_query.
Proof.
  unfold nodes.get_all_nodes. erewrite M_bind_ok; [|apply get_nodes_json_run]. cbv zeta.
  destruct (if negb _ || negb _ then None else json_loads _) as [d|];
    [destruct (py.truthy d)|]; unfold lift, raise; by intros [= _ <-].
Qed.

Lemma get_all_nodes_ok `{Env} st all_nodes :
  node_inventory st all_nodes →
  nodes.get_all_nodes st = (Ok all_nodes, called st nodes_query).
Proof.
  intros (Hrc & Hout & d & raw & Hd & Ht & Hraw & Hnodes).
  unfold nodes.get_all_nodes. erewrite M_bind_ok; [|apply get_nodes_json_run]. cbv zeta.
  rewrite Hrc. assert (str.truthy (stdout _) = true) as -> by (by apply truthy_true).
  simpl. rewrite Hd, Ht. unfold lift. f_equal.
  unfold items_of in Hraw.
  destruct (py.get d "items" (JList [])) as [items|]; [|done].
  unfold mbind, res_bind in *. by rewrite Hraw.
Qed.

Lemma node_inventory_captype `{Env} st all_nodes nd :
  node_inventory st all_nodes → nd ∈ all_nodes → NodeInfo.captype nd ≠ "".
Proof.
  intros (_ & _ & d & raw & _ & _ & _ & Hnodes) Hin.
  apply res_mapM_Forall in Hnodes. rewrite Forall_forall in Hnodes.
  destruct (Hnodes _ Hin) as [obj Hobj]. by eapply from_dict_captype_nonempty.
Qed.

Lemma elem_of_add_matching c all_nodes (s : gset string) n :
  n ∈ foldl (add_matching c) s all_nodes
  ↔ n ∈ s ∨ ∃ nd, nd ∈ all_nodes ∧ NodeInfo.captype nd = c ∧ NodeInfo.name nd = n.
Proof.
  revert s. induction all_nodes as [|nd all_nodes IH]; intros s; simpl.
  - split; [auto|]. intros [?|(nd & Hin & _)]; [done|]. by apply elem_of_nil in Hin.
  - rewrite IH. unfold add_matching.
    destruct (String.eqb_spec (NodeInfo.captype nd) c) as [Hc|Hc].
    + rewrite elem_of_union, elem_of_singleton. split.
      * intros [[?| ->]|(nd' & Hin & ?)]; [by left|right..].
        -- exists nd. split; [left|done].
        -- exists nd'. split; [by right|done].
      * intros [?|(nd' & Hin & Hc' & Hn)]; [by left; left|].
        apply elem_of_cons in Hin as [->|Hin]; [left; right; done|].
        right. eauto.
    + split.
      * intros [?|(nd' & Hin & ?)]; [by left|right]. exists nd'. split; [by right|done].
      * intros [?|(nd' & Hin & Hc' & Hn)]; [by left|].
        apply elem_of_cons in Hin as [->|Hin]; [done|]. right. eauto.
Qed.

Lemma elem_of_list_of_set `{Env} (s : gset string) n : n ∈ list_of_set s ↔ n ∈ s.
Proof. by rewrite (list_of_set_perm s), elem_of_elements. Qed.

Lemma NoDup_list_of_set `{Env} (s : gset string) : NoDup (list_of_set s).
Proof. rewrite (list_of_set_perm s). apply NoDup_elements. Qed.

(** The set [_resolve_nodes] starts from holds the explicit names. *)
Lemma explicit_names (node_args : list string) n :
  n ∈ match node_args with [] => (∅ : gset string) | _ => ∅ ∪ list_to_set node_args end
  ↔ n ∈ node_args.
Proof.
  destruct node_args as [|a l].
  - split; intros Hn; [by apply not_elem_of_empty in Hn | by apply elem_of_nil in Hn].
  - rewrite elem_of_union, elem_of_list_to_set. split; [|auto].
    intros [Hn|?]; [by apply not_elem_of_empty in Hn | done].
Qed.

Lemma resolve_nodes_no_filter `{Env} node_args captype st :
  opt_truthy captype = false →
  cli._resolve_nodes node_args captype st
  = (Ok (list_of_set match node_args with
                     | [] => (∅ : gset string)
                     | _ => ∅ ∪ list_to_set node_args
                     end), st).
Proof. intros Hc. unfold cli._resolve_nodes. cbv zeta. rewrite Hc. done. Qed.

Lemma resolve_nodes_filter `{Env} node_args captype st all_nodes st1 :
  opt_truthy captype = true →
  nodes.get_all_nodes st = (Ok all_nodes, st1) →
  cli._resolve_nodes node_args captype st
  = (Ok (list_of_set
           (foldl (add_matching (default "" captype))
              match node_args with
              | [] => (∅ : gset string)
              | _ => ∅ ∪ list_to_set node_args
              end all_nodes)), st1).
Proof.
  intros Hc Hall. unfold cli._resolve_nodes. cbv zeta. rewrite Hc.
  erewrite (M_bind_ok (try_except_RuntimeError _ _)); [done|].
  unfold try_except_RuntimeError. erewrite M_bind_ok; [|exact Hall]. done.
Qed.

(** [_resolve_nodes] starts at most one command, the node query, and
    prints nothing when it returns. *)
Lemma resolve_nodes_state `{Env} node_args captype st l st1 :
  cli._resolve_nodes node_args captype st = (Ok l, st1) →
  st1 = st ∨ st1 = called st nodes_query.
Proof.
  destruct (opt_truthy captype) eqn:Hc.
  - destruct (nodes.get_all_nodes st) as [[all_nodes|e] st'] eqn:Hall.
    + pose proof (get_all_nodes_state _ _ _ Hall) as ->.
      rewrite (resolve_nodes_filter _ _ _ _ _ Hc Hall). intros [= _ <-]. by right.
    + unfold cli._resolve_nodes. cbv zeta. rewrite Hc.
      unfold mbind at 1, M_bind at 1, try_except_RuntimeError.
      unfold mbind at 1, M_bind at 1. rewrite Hall.
      destruct e; done.
  - rewrite (resolve_nodes_no_filter _ _ _ Hc). intros [= _ <-]. by left.
Qed.

(** C4. [_resolve_nodes] returns, without repetition, exactly the explicit
    names (taken as they are) together with the names of the nodes whose
    capacity type equals the filter, compared as strings; without a
    filter no command is started, and with no explicit name either the
    result is empty. *)
Theorem resolve_nodes_union `{Env} node_args captype st :
  match captype with
  | None =>
      ∃ l, cli._resolve_nodes node_args None st = (Ok l, st)
           ∧ NoDup l ∧ (∀ n, n ∈ l ↔ n ∈ node_args) ∧ (node_args = [] → l = [])
  | Some c =>
      ∀ all_nodes, node_inventory st all_nodes →
        ∃ l st', cli._resolve_nodes node_args (Some c) st = (Ok l, st')
                 ∧ NoDup l
                 ∧ ∀ n, n ∈ l ↔
                        n ∈ node_args
                        ∨ ∃ nd, nd ∈ all_nodes ∧ NodeInfo.captype nd = c
                                ∧ NodeInfo.name nd = n
  end.
Proof.
  destruct captype as [c|].
  - intros all_nodes Hinv. destruct (opt_truthy (Some c)) eqn:Hc.
    + eexists _, _. split.
      { apply resolve_nodes_filter; [done|]. by apply get_all_nodes_ok. }
      split; [apply NoDup_list_of_set|]. intros n.
      by rewrite elem_of_list_of_set, elem_of_add_matching, explicit_names.
    + eexists _, _. split; [by apply resolve_nodes_no_filter|].
      split; [apply NoDup_list_of_set|]. intros n.
      rewrite elem_of_list_of_set, explicit_names. split; [auto|].
      intros [?|(nd & Hin & Hcap & _)]; [done|].
      apply opt_truthy_false in Hc as [?|[= ->]]; [done|].
      by destruct (node_inventory_captype _ _ _ Hinv Hin).
  - eexists. split; [by apply resolve_nodes_no_filter|].
    split; [apply NoDup_list_of_set|]. split.
    + intros n. by rewrite elem_of_list_of_set, explicit_names.
    + intros ->. apply Permutation_nil_r. rewrite (list_of_set_perm ∅).
      by rewrite elements_empty.
Qed.

(** In the sample cluster: the names [a, a, b] with the filter
    [NG/on-demand] give [a], [b] and the on-demand node, each once; with
    neither names nor a filter the result is empty. *)
Lemma resolve_nodes_union_witness :
  (∃ l st', cli._resolve_nodes ["a"; "a"; "b"] (Some "NG/on-demand") demo.st0 = (Ok l, st')
            ∧ NoDup l ∧ l ≡ₚ ["a"; "b"; "ip-10-0-0-2"])
  ∧ cli._resolve_nodes [] None demo.st0 = (Ok [], demo.st0).
Proof.
  split.
  - assert (∃ all_nodes, node_inventory (H := demo.env) demo.st0 all_nodes)
      as (all_nodes & Hinv).
    { eexists. split; [reflexivity|]. split; [discriminate|].
      eexists _, _. split; [reflexivity|]. split; [reflexivity|].
      split; [reflexivity|]. by vm_compute. }
    destruct (resolve_nodes_union (H := demo.env) ["a"; "a"; "b"] (Some "NG/on-demand")
                demo.st0 all_nodes Hinv) as (l & st' & Hres & Hnodup & _).
    exists l, st'. split; [exact Hres|]. split; [exact Hnodup|].
    assert (cli._resolve_nodes (H := demo.env) ["a"; "a"; "b"] (Some "NG/on-demand")
              demo.st0 = (Ok l, st')) as Hres' by exact Hres.
    vm_compute in Hres'. injection Hres' as <- _.
    exact (Permutation_cons_append ["a"; "b"] "ip-10-0-0-2").
  - destruct (resolve_nodes_union (H := demo.env) [] None demo.st0)
      as (l & Hres & _ & _ & Hnil).
    by rewrite Hres, (Hnil eq_refl).
Defined.

(** ** The [pods] command *)

Lemma by_name_lookup_None (all_nodes : list NodeInfo.t) n :
  cli.by_name all_nodes !! n = None ↔ n ∉ NodeInfo.name <$> all_nodes.
Proof.
  unfold cli.by_name.
  cut (∀ m : gmap string NodeInfo.t,
         foldl (λ m nd, <[NodeInfo.name nd := nd]> m) m all_nodes !! n = None
         ↔ m !! n = None ∧ n ∉ NodeInfo.name <$> all_nodes).
  { intros Hcut. rewrite Hcut, lookup_empty. tauto. }
  induction all_nodes as [|nd all_nodes IH]; intros m; simpl.
  - split; [intros ?; split; [done|apply not_elem_of_nil] | by intros [? _]].
  - rewrite IH, not_elem_of_cons, lookup_insert_None. intuition congruence.
Qed.

Lemma unknown_nodes_spec node_list all_nodes :
  cli.unknown_nodes node_list (cli.by_name all_nodes)
  = filter (λ n, n ∉ NodeInfo.name <$> all_nodes) node_list.
Proof.
  unfold cli.unknown_nodes. apply list_filter_iff. intros n. apply by_name_lookup_None.
Qed.

Lemma pods_cmd_unknown `{Env} nodes captype incl st node_list st1 all_nodes st2 n :
  cli._resolve_nodes nodes captype st = (Ok node_list, st1) →
  nodes.get_all_nodes st1 = (Ok all_nodes, st2) →
  n ∈ node_list → n ∉ NodeInfo.name <$> all_nodes →
  cli.pods_cmd nodes captype incl st
  = (Raise (SystemExit 1),
     echoed_err st2
       ("Unknown node(s): "
        +:+ str.join ", " (filter (λ n, n ∉ NodeInfo.name <$> all_nodes) node_list))).
Proof.
  intros Hres Hall Hin Hunk. unfold cli.pods_cmd.
  erewrite M_bind_ok; [|exact Hres].
  rewrite bool_decide_false by (intros ->; by apply elem_of_nil in Hin).
  erewrite (M_bind_ok (when_ false _)); [|reflexivity].
  erewrite (M_bind_ok (try_except_RuntimeError _ _)); cycle 1.
  { unfold try_except_RuntimeError. erewrite M_bind_ok; [|exact Hall]. reflexivity. }
  cbv zeta. rewrite unknown_nodes_spec.
  rewrite bool_decide_false; [done|].
  intros Hnil. assert (n ∈ filter (λ n, n ∉ NodeInfo.name <$> all_nodes) node_list) as Hn.
  { by apply list_elem_of_filter. }
  rewrite Hnil in Hn. by apply elem_of_nil in Hn.
Qed.

Lemma pods_cmd_no_pods `{Env} nodes captype incl st node_list st1 all_nodes st2 st3 :
  cli._resolve_nodes nodes captype st = (Ok node_list, st1) →
  node_list ≠ [] →
  nodes.get_all_nodes st1 = (Ok all_nodes, st2) →
  (∀ n, n ∈ node_list → n ∈ NodeInfo.name <$> all_nodes) →
  nodes.get_pods_for_nodes node_list incl st2 = (Ok [], st3) →
  cli.pods_cmd nodes captype incl st
  = (Ok (), echoed_out st3 "No pods found on the specified node(s).").
Proof.
  intros Hres Hne Hall Hknown Hpods. unfold cli.pods_cmd.
  erewrite M_bind_ok; [|exact Hres].
  rewrite bool_decide_false by done.
  erewrite (M_bind_ok (when_ false _)); [|reflexivity].
  erewrite (M_bind_ok (try_except_RuntimeError _ _)); cycle 1.
  { unfold try_except_RuntimeError. erewrite M_bind_ok; [|exact Hall]. reflexivity. }
  cbv zeta. rewrite unknown_nodes_spec.
  rewrite bool_decide_true; cycle 1.
  { destruct (filter _ node_list) as [|n l] eqn:Hf; [done|].
    assert (n ∈ filter (λ n, n ∉ NodeInfo.name <$> all_nodes) node_list) as Hn.
    { rewrite Hf. left. }
    apply list_elem_of_filter in Hn as [Hn1 Hn2]. by destruct Hn1; apply Hknown. }
  erewrite (M_bind_ok (when_ (negb true) _)); [|reflexivity].
  erewrite (M_bind_ok (try_except_RuntimeError _ _)); cycle 1.
  { unfold try_except_RuntimeError. by rewrite Hpods. }
  done.
Qed.

(** C6. When the resolved target list of a [pods] request holds a name
    that is not in the node inventory just fetched, the command exits
    with status 1 after writing "Unknown node(s): ..." with the unknown
    names to the error output; it writes nothing to the standard output,
    and the commands it has started are node queries only, so no pod
    fetch was attempted.  "No pods found" is a different outcome: the
    command returns normally after a line on the standard output. *)
Theorem pods_unknown_node_rejected `{Env} nodes captype incl st node_list st1 all_nodes st2 n :
  cli._resolve_nodes nodes captype st = (Ok node_list, st1) →
  nodes.get_all_nodes st1 = (Ok all_nodes, st2) →
  n ∈ node_list → n ∉ NodeInfo.name <$> all_nodes →
  (∃ st' added,
     cli.pods_cmd nodes captype incl st = (Raise (SystemExit 1), st')
     ∧ calls st' = calls st ++ added ∧ (pods_query ∉ added)
     ∧ echo_out st' = echo_out st
     ∧ echo_err st'
       = echo_err st
         ++ [("Unknown node(s): "
              +:+ str.join ", "
                    (filter (λ n, n ∉ NodeInfo.name <$> all_nodes) node_list))])
  ∧ (∀ nodes' captype' incl' sa node_list' sb all_nodes' sc sd,
       cli._resolve_nodes nodes' captype' sa = (Ok node_list', sb) →
       node_list' ≠ [] →
       nodes.get_all_nodes sb = (Ok all_nodes', sc) →
       (∀ n, n ∈ node_list' → n ∈ NodeInfo.name <$> all_nodes') →
       nodes.get_pods_for_nodes node_list' incl' sc = (Ok [], sd) →
       cli.pods_cmd nodes' captype' incl' sa
       = (Ok (), echoed_out sd "No pods found on the specified node(s).")).
Proof.
  intros Hres Hall Hin Hunk. split; [|intros; by eapply pods_cmd_no_pods].
  pose proof (get_all_nodes_state _ _ _ Hall) as ->.
  pose proof (pods_cmd_unknown _ _ incl _ _ _ _ _ n Hres Hall Hin Hunk) as Hcmd.
  destruct (resolve_nodes_state _ _ _ _ _ Hres) as [-> | ->].
  - eexists _, [nodes_query]. split; [exact Hcmd|]. split; [done|]. split; [|done].
    intros [?|Hn%elem_of_nil]%elem_of_cons; done.
  - eexists _, [nodes_query; nodes_query]. split; [exact Hcmd|].
    split; [simpl; by rewrite <-(assoc_L (++))|]. split; [|done].
    intros [?|[?|Hn%elem_of_nil]%elem_of_cons]%elem_of_cons; done.
Qed.

(** In the sample cluster a request for the node [ghost] next to a known
    node is rejected after one node query. *)
Lemma pods_unknown_node_rejected_witness :
  cli.pods_cmd ["ip-10-0-0-1"; "ghost"] None false demo.st0
  = (Raise (SystemExit 1),
     {| calls := [nodes_query]; echo_out := [];
        echo_err := ["Unknown node(s): ghost"] |}).
Proof.
  assert (∃ node_list, cli._resolve_nodes (H := demo.env) ["ip-10-0-0-1"; "ghost"] None
                         demo.st0 = (Ok node_list, demo.st0)
                       ∧ "ghost" ∈ node_list) as (node_list & Hres & Hin).
  { eexists. split; [by apply resolve_nodes_no_filter|].
    apply (proj2 (elem_of_list_of_set (H := demo.env) _ "ghost")).
    apply (proj2 (explicit_names ["ip-10-0-0-1"; "ghost"] "ghost")).
    apply elem_of_cons. right. apply elem_of_cons. by left. }
  assert (∃ all_nodes, nodes.get_all_nodes (H := demo.env) demo.st0
                       = (Ok all_nodes, called demo.st0 nodes_query)
                       ∧ NodeInfo.name <$> all_nodes = ["ip-10-0-0-1"; "ip-10-0-0-2"])
    as (all_nodes & Hall & Hnames).
  { eexists. split; by vm_compute. }
  assert ("ghost" ∉ NodeInfo.name <$> all_nodes) as Hunk.
  { rewrite Hnames. intros [?|[?|Hn%elem_of_nil]%elem_of_cons]%elem_of_cons; done. }
  destruct (pods_unknown_node_rejected (H := demo.env) ["ip-10-0-0-1"; "ghost"] None false
              demo.st0 node_list demo.st0 all_nodes (called demo.st0 nodes_query) "ghost"
              Hres Hall Hin Hunk) as [(st' & added & Hcmd & _) _].
  rewrite Hcmd. f_equal.
  assert (cli.pods_cmd (H := demo.env) ["ip-10-0-0-1"; "ghost"] None false demo.st0
          = (Raise (SystemExit 1), st')) as Hcmd' by exact Hcmd.
  vm_compute in Hcmd'. by injection Hcmd' as <-.
Defined.

(** ** Scaling a node group *)

Section scaling.
Context `{Env}.

Lemma describe_nodegroup_run cluster ng region profile st :
  aws.describe_nodegroup cluster ng region profile st
  = (let r := subprocess_run (calls st) (describe_cmd cluster ng region profile) in
     Ok (if negb (returncode r =? 0) || negb (str.truthy (stdout r))
         then None else json_loads (stdout r)),
     called st (describe_cmd cluster ng region profile)).
Proof.
  unfold aws.describe_nodegroup.
  erewrite (M_bind_ok (aws.run_aws _ _ _)); [|reflexivity].
  fold (describe_cmd cluster ng region profile).
  by destruct (negb _ || negb _).
Qed.

Lemma get_nodegroup_info_fails cluster ng region profile st :
  describe_fails (subprocess_run (calls st) (describe_cmd cluster ng region profile)) →
  aws.get_nodegroup_info cluster ng region profile st
  = (Ok None, called st (describe_cmd cluster ng region profile)).
Proof.
  intros Hf. unfold aws.get_nodegroup_info.
  erewrite M_bind_ok; [|apply describe_nodegroup_run]. cbv zeta.
  set (r := subprocess_run _ _) in *.
  destruct (Z.eqb_spec (returncode r) 0) as [Hrc|]; [|done].
  destruct (str.truthy (stdout r)) eqn:Hout; [|done]. simpl.
  destruct Hf as [?|[Hempty|[-> | (d & -> & ->)]]]; try done.
  rewrite Hempty in Hout. done.
Qed.

Lemma get_nodegroup_info_describes cluster ng region profile st current :
  describes ng (subprocess_run (calls st) (describe_cmd cluster ng region profile))
    current →
  aws.get_nodegroup_info cluster ng region profile st
  = (Ok (Some current), called st (describe_cmd cluster ng region profile)).
Proof.
  intros (Hrc & Hout & d & Hd & Ht & Hinfo). unfold aws.get_nodegroup_info.
  erewrite M_bind_ok; [|apply describe_nodegroup_run]. cbv zeta.
  set (r := subprocess_run _ _) in *.
  rewrite Hrc. assert (str.truthy (stdout r) = true) as -> by (by apply truthy_true).
  simpl. rewrite Hd, Ht. unfold lift. by rewrite Hinfo.
Qed.

Lemma update_after_info cluster ng region profile mn mx ds st st1 current :
  aws.get_nodegroup_info cluster ng region profile st = (Ok (Some current), st1) →
  let scaling :=
    aws.scaling_config (default (NodeGroupInfo.min_size current) mn)
      (default (NodeGroupInfo.max_size current) mx)
      (default (NodeGroupInfo.desired_size current) ds) in
  let cmd := aws.aws_cmd (aws.update_args cluster ng scaling) region profile in
  aws.update_nodegroup_scaling cluster ng region profile mn mx ds st
  = (Ok (kubectl.completed (subprocess_run (calls st1) cmd)), called st1 cmd).
Proof.
  intros Hinfo scaling cmd. unfold aws.update_nodegroup_scaling.
  erewrite M_bind_ok; [|exact Hinfo]. cbv beta iota zeta.
  erewrite (M_bind_ok (aws.run_aws _ _ _)); [|reflexivity]. done.
Qed.

Lemma update_after_no_info cluster ng region profile mn mx ds st st1 :
  aws.get_nodegroup_info cluster ng region profile st = (Ok None, st1) →
  aws.update_nodegroup_scaling cluster ng region profile mn mx ds st
  = (Ok (1, "Could not describe node group " +:+ ng), st1).
Proof.
  intros Hinfo. unfold aws.update_nodegroup_scaling.
  erewrite M_bind_ok; [|exact Hinfo]. done.
Qed.
End scaling.

Lemma pretty_N_go_comma_free x s : comma_free s → comma_free (pretty_N_go x s).
Proof.
  revert s. induction (N.lt_wf_0 x) as [x _ IH]; intros s Hs.
  assert (x = 0 ∨ 0 < x)%N as [->|?] by lia.
  - by rewrite pretty_N_go_0.
  - rewrite pretty_N_go_step by done. apply IH.
    { by apply N.div_lt. }
    split; [|done]. unfold pretty_N_char. by repeat case_match.
Qed.

Lemma pretty_Z_comma_free (z : Z) : comma_free (pretty z).
Proof.
  assert (∀ p : positive, comma_free (pretty p)) as Hp.
  { intros p. unfold pretty, pretty_positive, pretty, pretty_N.
    case_decide; [done|]. by apply pretty_N_go_comma_free. }
  destruct z as [|p|p]; unfold pretty, pretty_Z; [done|apply Hp|].
  split; [done|apply Hp].
Qed.

Lemma comma_split (a a' r r' : string) :
  comma_free a → comma_free a' →
  a +:+ String "," r = a' +:+ String "," r' → a = a' ∧ r = r'.
Proof.
  revert a'. induction a as [|c a IH]; intros [|c' a'] Ha Ha' Heq;
    rewrite ?app_empty_l, ?app_cons in Heq.
  - by injection Heq.
  - injection Heq as <- _. by destruct Ha' as [? _].
  - injection Heq as -> _. by destruct Ha as [? _].
  - injection Heq as -> Heq. destruct Ha as [_ Ha], Ha' as [_ Ha'].
    destruct (IH _ Ha Ha' Heq) as [-> ->]. done.
Qed.

(** The [--scaling-config] value names its three numbers unambiguously. *)
Lemma scaling_config_inj a b c a' b' c' :
  aws.scaling_config a b c = aws.scaling_config a' b' c' → a = a' ∧ b = b' ∧ c = c'.
Proof.
  unfold aws.scaling_config. intros Heq.
  apply (inj (String.app "minSize=")) in Heq.
  apply comma_split in Heq as [Ha Heq]; [|apply pretty_Z_comma_free..].
  apply (inj (String.app "maxSize=")) in Heq.
  apply comma_split in Heq as [Hb Heq]; [|apply pretty_Z_comma_free..].
  apply (inj (String.app "desiredSize=")) in Heq.
  by apply (inj pretty) in Ha, Hb, Heq.
Qed.

(** C7. When the description of a group is fetched, the update starts
    exactly two commands: the description, then one update request whose
    [--scaling-config] spells out minSize, maxSize and desiredSize; each
    is the caller's value when supplied and the just-fetched current
    value otherwise, and the text determines the three numbers.  With
    only the desired size supplied, the request carries the group's
    current minimum and maximum. *)
Theorem update_carries_full_triple `{Env} cluster ng region profile mn mx ds st current :
  describes ng (subprocess_run (calls st) (describe_cmd cluster ng region profile)) current →
  let min_s := default (NodeGroupInfo.min_size current) mn in
  let max_s := default (NodeGroupInfo.max_size current) mx in
  let desired_s := default (NodeGroupInfo.desired_size current) ds in
  let config :=
    "minSize=" +:+ pretty min_s +:+ ",maxSize=" +:+ pretty max_s
    +:+ ",desiredSize=" +:+ pretty desired_s in
  let request :=
    aws.aws_cmd
      ["update-nodegroup-config"; "--cluster-name"; cluster; "--nodegroup-name"; ng;
       "--scaling-config"; config]
      region profile in
  let st1 := called st (describe_cmd cluster ng region profile) in
  aws.update_nodegroup_scaling cluster ng region profile mn mx ds st
  = (Ok (kubectl.completed (subprocess_run (calls st1) request)), called st1 request)
  ∧ (∀ a b c, config = aws.scaling_config a b c →
              a = min_s ∧ b = max_s ∧ c = desired_s)
  ∧ (mn = None → mx = None → ∀ d, ds = Some d →
     config = "minSize=" +:+ pretty (NodeGroupInfo.min_size current)
              +:+ ",maxSize=" +:+ pretty (NodeGroupInfo.max_size current)
              +:+ ",desiredSize=" +:+ pretty d).
Proof.
  intros Hd min_s max_s desired_s config request st1.
  apply get_nodegroup_info_describes with (cluster := cluster) (region := region)
    (profile := profile) in Hd.
  split; [|split].
  - by rewrite (update_after_info _ _ _ _ mn mx ds _ _ _ Hd).
  - intros a b c Hc. symmetry in Hc. by apply scaling_config_inj in Hc.
  - intros -> -> d ->. done.
Qed.

(** Scaling the group [main] (min 1, max 5, desired 3) of the sample
    cluster to a desired size of 0 keeps min 1 and max 5 in the request. *)
Lemma update_carries_full_triple_witness :
  (aws.update_nodegroup_scaling "demo" "main" None None None None (Some 0) demo.st0).2
  = {| calls :=
         [describe_cmd "demo" "main" None None;
          ["aws"; "eks"; "update-nodegroup-config"; "--cluster-name"; "demo";
           "--nodegroup-name"; "main"; "--scaling-config";
           "minSize=1,maxSize=5,desiredSize=0"]];
       echo_out := []; echo_err := [] |}.
Proof.
  assert (∃ current,
            describes (H := demo.env) "main"
              (subprocess_run [] (describe_cmd "demo" "main" None None)) current
            ∧ NodeGroupInfo.min_size current = 1 ∧ NodeGroupInfo.max_size current = 5)
    as (current & Hdesc & Hmin & Hmax).
  { eexists. split.
    - split; [reflexivity|]. split; [discriminate|].
      eexists. split; [reflexivity|]. split; [reflexivity|]. by vm_compute.
    - split; reflexivity. }
  destruct (update_carries_full_triple (H := demo.env) "demo" "main" None None
              None None (Some 0) demo.st0 current Hdesc) as (Hupd & _ & Honly).
  rewrite Hupd. cbn [snd]. unfold called. cbn [calls echo_out echo_err demo.st0 app].
  do 2 f_equal. unfold aws.aws_cmd, aws.opt_flag. cbn [opt_truthy app].
  do 9 f_equal. rewrite (Honly eq_refl eq_refl 0 eq_refl), Hmin, Hmax. reflexivity.
Defined.

(** C10. When the description of a group cannot be fetched, the update
    returns exit code 1 with the message naming the group; the only
    command it starts is the description, so no update request reaches
    the provider. *)
Theorem update_without_description `{Env} cluster ng region profile mn mx ds st :
  describe_fails (subprocess_run (calls st) (describe_cmd cluster ng region profile)) →
  ∃ st',
    aws.update_nodegroup_scaling cluster ng region profile mn mx ds st
    = (Ok (1, "Could not describe node group " +:+ ng), st')
    ∧ calls st' = calls st ++ [describe_cmd cluster ng region profile]
    ∧ filter (λ c, is_update_request c = true) (calls st')
      = filter (λ c, is_update_request c = true) (calls st).
Proof.
  intros Hf. eexists. split; [|split].
  - apply update_after_no_info. by apply get_nodegroup_info_fails.
  - done.
  - simpl. rewrite filter_app, filter_cons, filter_nil. rewrite decide_False.
    + by rewrite app_nil_r.
    + done.
Qed.

(** The sample cluster has no group [broken]: the describe command exits
    with status 254. *)
Lemma update_without_description_witness :
  aws.update_nodegroup_scaling "demo" "broken" None None None None (Some 0) demo.st0
  = (Ok (1, "Could not describe node group broken"),
     called demo.st0 (describe_cmd "demo" "broken" None None)).
Proof.
  destruct (update_without_description (H := demo.env) "demo" "broken" None None
              None None (Some 0) demo.st0) as (st' & Hupd & Hcalls & _).
  { left. by vm_compute. }
  rewrite Hupd. f_equal. destruct st' as [c o e].
  assert (aws.update_nodegroup_scaling (H := demo.env) "demo" "broken" None None None None
            (Some 0) demo.st0
          = (Ok (1, "Could not describe node group broken"),
             {| calls := c; echo_out := o; echo_err := e |})) as Hupd' by exact Hupd.
  vm_compute in Hupd'. by injection Hupd' as <- <- <-.
Defined.

(** ** Scaling several groups *)

Section scale_loop.
Context `{Env}.
Context (cluster : string) (region profile : option string) (mn mx ds : option Z).

#[local] Abbreviation scale_group := (cli.scale_group cluster region profile mn mx ds).
#[local] Abbreviation scale_step := (cli.scale_step cluster region profile mn mx ds).

(** The loop visits every group: it stops early only if handling some
    group raises, and otherwise counts the non-zero results. *)
Lemma scale_loop_spec l failed st :
  M_foldM scale_step failed l st
  = match M_mapM scale_group l st with
    | (Ok results, st') => (Ok (failed + failures results), st')
    | (Raise e, st') => (Raise e, st')
    end.
Proof.
  revert failed st. induction l as [|ng l IH]; intros failed st; simpl.
  - unfold mret, M_ret. by rewrite Z.add_0_r.
  - destruct (scale_group ng st) as [[r|e] st1] eqn:Hg.
    + assert (scale_step failed ng st
              = (Ok (if negb (r.1 =? 0) then failed + 1 else failed), st1)) as Hs.
      { unfold cli.scale_step. by erewrite M_bind_ok by exact Hg. }
      erewrite (M_bind_ok (scale_step _ _)) by exact Hs.
      erewrite (M_bind_ok (scale_group ng)) by exact Hg.
      rewrite IH. destruct (M_mapM scale_group l st1) as [[results|e] st2] eqn:Hm.
      * erewrite M_bind_ok by exact Hm. unfold mret, M_ret. do 2 f_equal.
        unfold failures. rewrite filter_cons.
        destruct (Z.eqb_spec r.1 0) as [Hr|Hr]; simpl.
        -- by rewrite decide_False by (by intros ?).
        -- rewrite decide_True by done. simpl length. lia.
      * by erewrite M_bind_raise by exact Hm.
    + assert (scale_step failed ng st = (Raise e, st1)) as Hs.
      { unfold cli.scale_step. by erewrite M_bind_raise by exact Hg. }
      erewrite (M_bind_raise (scale_step _ _)) by exact Hs.
      by erewrite (M_bind_raise (scale_group ng)) by exact Hg.
Qed.

Lemma scale_group_describe_fails ng st :
  describe_fails
    (subprocess_run (calls st) (describe_cmd cluster ng region profile)) →
  scale_group ng st
  = (Ok (1, "Could not describe node group " +:+ ng),
     echoed_err
       (called (echoed_out st (scale_header cluster ng))
          (describe_cmd cluster ng region profile))
       ("Could not describe node group " +:+ ng)).
Proof.
  intros Hf. unfold cli.scale_group.
  erewrite (M_bind_ok (echo _ _)); [|reflexivity].
  erewrite M_bind_ok; cycle 1.
  { apply update_after_no_info. by apply get_nodegroup_info_fails. }
  assert (str.truthy ("Could not describe node group " +:+ ng) = true) as Ht.
  { by apply truthy_true. }
  cbn [fst snd]. rewrite Ht. done.
Qed.
End scale_loop.

(** C8. In the final loop of [scale_cmd] a group whose description cannot
    be fetched gets the result (1, "Could not describe node group ..."),
    written to the error output, and the loop goes on with the remaining
    groups, the failure counted.  When handling the groups yields the
    results [results], there is one result per targeted group and the
    command exits with a status that is 0 or 1 and is non-zero exactly
    when some result has a non-zero exit code. *)
Theorem scale_results_aggregate `{Env} cluster region profile mn mx ds names st :
  (∀ ng st0,
     describe_fails
       (subprocess_run (calls st0) (describe_cmd cluster ng region profile)) →
     ∃ st1,
       cli.scale_group cluster region profile mn mx ds ng st0
       = (Ok (1, "Could not describe node group " +:+ ng), st1)
       ∧ echo_err st1 = echo_err st0 ++ ["Could not describe node group " +:+ ng]
       ∧ ∀ failed rest,
           M_foldM (cli.scale_step cluster region profile mn mx ds) failed (ng :: rest) st0
           = M_foldM (cli.scale_step cluster region profile mn mx ds) (failed + 1) rest st1)
  ∧ (∀ results st',
       M_mapM (cli.scale_group cluster region profile mn mx ds) (cli.sorted names) st
       = (Ok results, st') →
       length results = length names
       ∧ ∃ code,
           cli.scale_apply cluster region profile mn mx ds names st
           = (Raise (SystemExit code), st')
           ∧ (code = 0 ∨ code = 1)
           ∧ (code ≠ 0 ↔ Exists (λ r, r.1 ≠ 0) results)).
Proof.
  split.
  - intros ng st0 Hf. eexists. split; [by apply scale_group_describe_fails|].
    split; [done|]. intros failed rest.
    change (M_foldM ?f failed (ng :: rest))
      with (f failed ng ≫= λ s', M_foldM f s' rest).
    erewrite M_bind_ok; [reflexivity|].
    unfold cli.scale_step.
    erewrite M_bind_ok; [|by apply scale_group_describe_fails]. reflexivity.
  - intros results st' Hres. split.
    { rewrite (M_mapM_length _ _ _ _ _ Hres). unfold cli.sorted.
      by rewrite (sort_by_perm id String.ltb names). }
    exists (if negb (failures results =? 0) then 1 else 0).
    split; [|split].
    + unfold cli.scale_apply. erewrite M_bind_ok; cycle 1.
      { rewrite scale_loop_spec, Hres. reflexivity. }
      done.
    + destruct (negb _); auto.
    + unfold failures. rewrite Exists_exists.
      destruct (filter (λ r : Z * string, r.1 ≠ 0) results) as [|r l] eqn:Hfilter; simpl.
      * split; [done|]. intros (r & Hin & Hr).
        assert (r ∈ filter (λ r : Z * string, r.1 ≠ 0) results) as Hr'
          by (by apply list_elem_of_filter).
        rewrite Hfilter in Hr'. by apply elem_of_nil in Hr'.
      * split; [|done]. intros _. exists r.
        assert (r ∈ filter (λ r : Z * string, r.1 ≠ 0) results) as Hr'
          by (rewrite Hfilter; left).
        apply list_elem_of_filter in Hr' as [? ?]. done.
Qed.

(** Scaling three groups of the sample cluster of which only [main] can
    be described: three results in name order, two failures and one
    success, and exit status 1. *)
Lemma scale_results_aggregate_witness :
  ∃ st',
    M_mapM (cli.scale_group "demo" None None None None (Some 0))
      (cli.sorted ["main"; "broken"; "alpha"]) demo.st0
    = (Ok [(1, "Could not describe node group alpha");
           (1, "Could not describe node group broken");
           (0, "updated")], st')
    ∧ cli.scale_apply "demo" None None None None (Some 0) ["main"; "broken"; "alpha"]
        demo.st0
      = (Raise (SystemExit 1), st').
Proof.
  eexists. split; [by vm_compute|].
  destruct (scale_results_aggregate (H := demo.env) "demo" None None None None (Some 0)
              ["main"; "broken"; "alpha"] demo.st0) as [_ Hagg].
  edestruct Hagg as (_ & code & -> & [-> | ->] & Hcode); [by vm_compute| |reflexivity].
  exfalso. apply Hcode; [|reflexivity]. left. discriminate.
Defined.
